(** * mlspp: the group state machine and its HKDF, embedded in Rocq

    Sources covered:
    - [src/lib/hpke/src/hkdf.cpp]       HKDF::extract, HKDF::expand
    - [src/unnamed/part_002] (state.cpp)
                                State: constructors, message factories,
                                handlers, operator==, key derivation,
                                sign / verify, the TLS encoding of a State
    - [src/unnamed/part_001] (ratchet_tree.h)
                                the shape of tree nodes

    Code that state.cpp calls but that is not part of the sources at hand
    (the ratchet tree's methods, the roster, the signature and KDF
    primitives, the TLS codec of the fields) is either an operation of the
    [Primitives] interface or, where the text says so, modelled from the
    specification. *)

From Stdlib Require Import NArith Lia.
From Stdlib.Strings Require Import Byte.
From stdpp Require Import base option list strings.

Local Open Scope N_scope.

(** ** Common data *)

(** [bytes]: std::vector<uint8_t>. *)
Abbreviation bytes := (list byte).

(** A [uint8_t] value held in an [N] below 256, as the octet it is. *)
Definition byte_of_u8 (i : N) : byte :=
  match Byte.of_N (i mod 256) with
  | Some b => b
  | None => "000"%byte
  end.

(** ** hkdf.cpp *)

Module HKDF.
Section WithDigest.

(** [digest.hmac(key, data)] of the digest the HKDF instance was built
    with (digest.cpp is not part of the sources at hand). *)
Variable hmac : bytes -> bytes -> bytes.

(** HKDF::extract *)
Definition extract (salt ikm : bytes) : bytes := hmac salt ikm.

(** The [while] loop of HKDF::expand.  The loop state is [(okm, i, Ti)];
    [i] is a [uint8_t], so [i += 1] wraps at 256.  [fuel] bounds the
    number of iterations; [None] means the bound was reached. *)
Fixpoint expand_loop (fuel : nat) (prk info : bytes) (size : nat)
         (okm : bytes) (i : N) (Ti : bytes) : option bytes :=
  if (length okm <? size)%nat then
    match fuel with
    | O => None
    | S fuel' =>
        let i := (i + 1) mod 256 in
        let block := Ti ++ info ++ [byte_of_u8 i] in
        let Ti := hmac prk block in
        expand_loop fuel' prk info size (okm ++ Ti) i Ti
    end
  else Some okm.

(** HKDF::expand: run the loop from [(bytes{}, 0x00, bytes{})], then
    [okm.resize(size)]. *)
Definition expand (fuel : nat) (prk info : bytes) (size : nat)
  : option bytes :=
  match expand_loop fuel prk info size [] 0 [] with
  | Some okm => Some (resize size "000"%byte okm)
  | None => None
  end.

(** *** RFC 5869, section 2.3, as the specification words it

    T(0) is empty and T(i) = HMAC(prk, T(i-1) || info || byte(i)); the
    output is the first L bytes of T(1) || T(2) || ...  [byte(i)] is the
    single octet holding [i]; the RFC only uses i <= 255, beyond that the
    octet is the low eight bits of [i]. *)
Fixpoint rfc_T (prk info : bytes) (i : nat) : bytes :=
  match i with
  | O => []
  | S j => hmac prk (rfc_T prk info j ++ info ++ [byte_of_u8 (N.of_nat i)])
  end.

(** T(1) || ... || T(n) *)
Fixpoint rfc_stream (prk info : bytes) (n : nat) : bytes :=
  match n with
  | O => []
  | S m => rfc_stream prk info m ++ rfc_T prk info n
  end.

End WithDigest.
End HKDF.

(** ** Scalars and errors *)

(** [uint32_t] ([epoch_t], leaf indices) as [N] with its wrap-around. *)
Definition u32 (n : N) : N := n mod 2 ^ 32.

#[global] Instance byte_eq_dec : EqDecision byte := Byte.byte_eq_dec.

(** Modelled from the spec: the enumerated cipher-suite tag ("an enumerated
    tag selecting one coherent triple"); crypto.h is not at hand, the four
    constructors are the suites the library names. *)
Inductive CipherSuite :=
| P256_SHA256_AES128GCM
| P521_SHA512_AES256GCM
| X25519_SHA256_AES128GCM
| X448_SHA512_AES256GCM.

#[global] Instance CipherSuite_eq_dec : EqDecision CipherSuite.
Proof. solve_decision. Defined.

(** What a call can end with instead of a value: the two exception classes
    state.cpp throws, and [Undefined] where C++ leaves the behaviour
    undefined (a vector indexed past its end, an empty optional
    dereferenced); the model stops there. *)
Inductive error :=
| InvalidParameterError (what : string)
| ProtocolError (what : string)
| Undefined (what : string).

Inductive result (A : Type) :=
| Ok (a : A)
| Err (e : error).
Arguments Ok {A} a.
Arguments Err {A} e.

(** [v[i]] on a std::vector. *)
Definition vec_at {A} (v : list A) (i : N) : result A :=
  match v !! N.to_nat i with
  | Some x => Ok x
  | None => Err (Undefined "vector index out of range")
  end.

(** [*opt] on an optional. *)
Definition deref {A} (o : option A) : result A :=
  match o with
  | Some x => Ok x
  | None => Err (Undefined "empty optional dereferenced")
  end.

(** ** Keys, credentials, roster *)

(** Keys are held as their byte encodings. *)
Abbreviation SignaturePublicKey := bytes.
Abbreviation SignaturePrivateKey := bytes.
Abbreviation DHPublicKey := bytes.
Abbreviation DHPrivateKey := bytes.

Record RawKeyCredential := { public_key : SignaturePublicKey }.

#[global] Instance RawKeyCredential_eq_dec : EqDecision RawKeyCredential.
Proof. solve_decision. Defined.

Abbreviation Credential := RawKeyCredential.

Module Roster.

(** Modelled from the spec: the Roster class (roster.h, roster.cpp are not
    at hand): a "sequence of Credentials indexed by LeafIndex",
    "append-only except for copy(dst, src)". *)
Abbreviation t := (list RawKeyCredential).

(** Modelled from the spec: Roster::add appends. *)
Definition add (r : t) (cred : RawKeyCredential) : t := r ++ [cred].

(** Modelled from the spec: Roster::get is the credential at a leaf
    index. *)
Definition get (r : t) (index : N) : result RawKeyCredential :=
  vec_at r index.

(** Modelled from the spec: Roster::copy(dst, src) overwrites the entry at
    [dst] with the entry at [src]. *)
Definition copy (r : t) (dst src : N) : result t :=
  match vec_at r src with
  | Ok cred =>
      if (N.to_nat dst <? length r)%nat
      then Ok (<[N.to_nat dst := cred]> r)
      else Err (Undefined "vector index out of range")
  | Err e => Err e
  end.

(** Modelled from the spec: two rosters are equal when they hold the same
    credentials in the same order. *)
Definition eqb (a b : t) : bool := bool_decide (a = b).

End Roster.

(** ** ratchet_tree.h *)

(** RatchetTreeNode: [_secret], [_priv], [_pub], [_cred]. *)
Record RatchetTreeNode := {
  node_secret : option bytes;
  node_priv : option DHPrivateKey;
  node_pub : DHPublicKey;
  node_cred : option Credential
}.

(** OptionalRatchetTreeNode: an optional node and its [_hash]. *)
Record OptionalRatchetTreeNode := {
  opt_node : option RatchetTreeNode;
  opt_hash : bytes
}.

(** RatchetTree: CipherAware, [_nodes], [_secret_size]. *)
Record RatchetTree := {
  tree_suite : CipherSuite;
  tree_nodes : list OptionalRatchetTreeNode;
  tree_secret_size : nat
}.

(** Modelled from the spec: OptionalRatchetTreeNode::blank (declared in
    ratchet_tree.h, defined elsewhere): a blank slot is an absent node. *)
Definition blank (n : OptionalRatchetTreeNode) : bool :=
  match opt_node n with
  | Some _ => false
  | None => true
  end.

(** Modelled from the spec: the slot of leaf [i] is node [2 i] ("the node at
    even index 2i corresponds to leaf i"); a slot outside the vector counts
    as blank. *)
Definition leaf_blank (t : RatchetTree) (leaf : N) : bool :=
  match tree_nodes t !! N.to_nat (2 * leaf) with
  | Some n => blank n
  | None => true
  end.

(** ** Messages *)

(** Modelled from the spec: the message types of messages.h, which is not
    at hand: "DirectPath: ordered sequence of { public_key,
    encrypted_path_secret[] }", "UserInitKey: { cipher_suites[],
    init_keys[], identity_key, signature }", the three operations, "Handshake:
    { prior_epoch, operation, signer_index, signature }", and the Welcome
    with the eight fields State::add fills in. *)
Record RatchetNode := {
  rn_public_key : DHPublicKey;
  rn_node_secrets : list bytes
}.

Definition RatchetPath := list RatchetNode.

Record UserInitKey := {
  cipher_suites : list CipherSuite;
  init_keys : list bytes;
  identity_key : SignaturePublicKey;
  uik_signature : bytes
}.

Record Add := { add_path : RatchetPath; add_init_key : UserInitKey }.
Record Update := { update_path : RatchetPath }.
Record Remove := { removed : N; remove_path : RatchetPath }.

(** GroupOperation: the [type] tag with the member it selects. *)
Inductive GroupOperation :=
| OpAdd (add : Add)
| OpUpdate (update : Update)
| OpRemove (remove : Remove).

Record Handshake := {
  prior_epoch : N;
  operation : GroupOperation;
  signer_index : N;
  signature : bytes
}.

Record Welcome := {
  w_group_id : bytes;
  w_epoch : N;
  w_cipher_suite : CipherSuite;
  w_roster : Roster.t;
  w_tree : RatchetTree;
  w_transcript : list GroupOperation;
  w_init_secret : bytes;
  w_leaf_secret : bytes
}.

(** ** state.cpp: the State object *)

Record State := {
  _index : N;
  _identity_priv : SignaturePrivateKey;
  _epoch : N;
  _group_id : bytes;
  _suite : CipherSuite;
  _message_master_secret : bytes;
  _init_secret : bytes;
  _tree : RatchetTree;
  _roster : Roster.t;
  _transcript : list GroupOperation;
  _cached_leaf_secret : bytes
}.

(** Field assignments. *)
Definition set_epoch (v : N) (s : State) : State :=
  {| _index := _index s; _identity_priv := _identity_priv s; _epoch := v;
     _group_id := _group_id s; _suite := _suite s;
     _message_master_secret := _message_master_secret s;
     _init_secret := _init_secret s; _tree := _tree s; _roster := _roster s;
     _transcript := _transcript s;
     _cached_leaf_secret := _cached_leaf_secret s |}.

Definition set_message_master_secret (v : bytes) (s : State) : State :=
  {| _index := _index s; _identity_priv := _identity_priv s;
     _epoch := _epoch s; _group_id := _group_id s; _suite := _suite s;
     _message_master_secret := v;
     _init_secret := _init_secret s; _tree := _tree s; _roster := _roster s;
     _transcript := _transcript s;
     _cached_leaf_secret := _cached_leaf_secret s |}.

Definition set_init_secret (v : bytes) (s : State) : State :=
  {| _index := _index s; _identity_priv := _identity_priv s;
     _epoch := _epoch s; _group_id := _group_id s; _suite := _suite s;
     _message_master_secret := _message_master_secret s;
     _init_secret := v; _tree := _tree s; _roster := _roster s;
     _transcript := _transcript s;
     _cached_leaf_secret := _cached_leaf_secret s |}.

Definition set_tree (v : RatchetTree) (s : State) : State :=
  {| _index := _index s; _identity_priv := _identity_priv s;
     _epoch := _epoch s; _group_id := _group_id s; _suite := _suite s;
     _message_master_secret := _message_master_secret s;
     _init_secret := _init_secret s; _tree := v; _roster := _roster s;
     _transcript := _transcript s;
     _cached_leaf_secret := _cached_leaf_secret s |}.

Definition set_roster (v : Roster.t) (s : State) : State :=
  {| _index := _index s; _identity_priv := _identity_priv s;
     _epoch := _epoch s; _group_id := _group_id s; _suite := _suite s;
     _message_master_secret := _message_master_secret s;
     _init_secret := _init_secret s; _tree := _tree s; _roster := v;
     _transcript := _transcript s;
     _cached_leaf_secret := _cached_leaf_secret s |}.

Definition set_cached_leaf_secret (v : bytes) (s : State) : State :=
  {| _index := _index s; _identity_priv := _identity_priv s;
     _epoch := _epoch s; _group_id := _group_id s; _suite := _suite s;
     _message_master_secret := _message_master_secret s;
     _init_secret := _init_secret s; _tree := _tree s; _roster := _roster s;
     _transcript := _transcript s;
     _cached_leaf_secret := v |}.

(** ** Code outside state.cpp

    What state.cpp calls on the ratchet tree, the crypto layer and the TLS
    codec.  None of these is defined in the sources at hand, so the state
    machine is parameterised by them.  Tree methods may throw; [decrypt]
    is taken to leave the tree alone and to hand back the decrypted path
    (state.cpp passes it a scratch copy of the path and merges that copy).
    [encrypt] seals the path secrets and may draw from the CSPRNG for it:
    it is given the state of the CSPRNG and hands back the state it leaves
    it in. *)
Class Primitives := {
  (* RatchetTree *)
  tree_new : CipherSuite -> bytes -> RatchetTree;
  tree_size : RatchetTree -> N;
  tree_encrypt : RatchetTree -> N -> bytes -> N -> result RatchetPath * N;
  tree_decrypt : RatchetTree -> N -> RatchetPath -> result RatchetPath;
  tree_merge : RatchetTree -> N -> RatchetPath -> result RatchetTree;
  tree_set_leaf : RatchetTree -> N -> bytes -> result RatchetTree;
  tree_root : RatchetTree -> result RatchetTreeNode;
  tree_eqb : RatchetTree -> RatchetTree -> bool;
  (* crypto *)
  hkdf_extract : CipherSuite -> bytes -> bytes -> bytes;
  derive_secret : CipherSuite -> bytes -> string -> State -> N -> bytes;
  digest_output_size : CipherSuite -> N;
  dh_derive_public_key : CipherSuite -> bytes -> DHPublicKey;
  signature_public_key : SignaturePrivateKey -> SignaturePublicKey;
  signature_sign : SignaturePrivateKey -> bytes -> bytes;
  signature_verify : SignaturePublicKey -> bytes -> bytes -> bool;
  user_init_key_verify : UserInitKey -> bool;
  (* the CSPRNG: the bytes handed out by the n-th draw, for a given size *)
  csprng : N -> N -> bytes;
  (* tls::ostream << field *)
  tls_group_id : bytes -> bytes;
  tls_epoch : N -> bytes;
  tls_roster : Roster.t -> bytes;
  tls_tree : RatchetTree -> bytes;
  tls_transcript : list GroupOperation -> bytes
}.

(** [zero_bytes(n)] *)
Definition zero_bytes (n : N) : bytes := replicate (N.to_nat n) "000"%byte.

(** ** Method calls as computations

    A member function runs against a store holding the object it is called
    on ([this]) and the state of the process-wide CSPRNG ([rng], the number
    of draws made so far).  It ends with a value or a thrown error; what it
    had written to the store before throwing stays written. *)
Record Mem := { this : State; rng : N }.

Definition M (A : Type) : Type := Mem -> result A * Mem.

#[global] Instance M_ret : MRet M := fun A a m => (Ok a, m).

#[global] Instance M_bind : MBind M := fun A B f c m =>
  match c m with
  | (Ok a, m') => f a m'
  | (Err e, m') => (Err e, m')
  end.

Definition throw {A} (e : error) : M A := fun m => (Err e, m).

(** A call that yields [r] and touches nothing. *)
Definition lift {A} (r : result A) : M A := fun m => (r, m).

Definition get_this : M State := fun m => (Ok (this m), m).

Definition modify_this (f : State -> State) : M unit :=
  fun m => (Ok tt, {| this := f (this m); rng := rng m |}).

(** [obj.method(...)] for an object [obj] other than [this]: the method
    runs with [obj] as its [this]; the caller gets the value together with
    [obj] as the method left it, and its own [this] back.  When the method
    throws, [obj] is a local of the caller that the unwinding destroys. *)
Definition on_object {A} (obj : State) (c : M A) : M (A * State) :=
  fun m =>
    match c {| this := obj; rng := rng m |} with
    | (Ok a, m') => (Ok (a, this m'), {| this := this m; rng := rng m' |})
    | (Err e, m') => (Err e, {| this := this m; rng := rng m' |})
    end.

(** *** What a call may touch

    [const_call c]: [c] hands [this] back as it found it (the method is
    const).  [no_random c]: [c] neither reads nor advances the CSPRNG: its
    value and what it does to [this] are the same at every CSPRNG state,
    and that state is handed back as found. *)
Definition const_call {A} (c : M A) : Prop :=
  forall m, this (c m).2 = this m.

Definition no_random {A} (c : M A) : Prop :=
  forall s r r',
    (c {| this := s; rng := r |}).1 = (c {| this := s; rng := r' |}).1
    /\ this (c {| this := s; rng := r |}).2
       = this (c {| this := s; rng := r' |}).2
    /\ rng (c {| this := s; rng := r |}).2 = r.

Section StateMachine.
Context `{Primitives}.

(** [random_bytes(n)]: one draw from the CSPRNG. *)
Definition random_bytes (n : N) : M bytes :=
  fun m => (Ok (csprng (rng m) n), {| this := this m; rng := rng m + 1 |}).

(** [_tree.method(...)] for a const method of the tree. *)
Definition tree_call {A} (f : RatchetTree -> result A) : M A :=
  fun m => (f (_tree (this m)), m).

(** [_tree.encrypt(from, leaf)]: const on the tree, free to draw from the
    CSPRNG. *)
Definition tree_encrypt_call (from : N) (leaf : bytes) : M RatchetPath :=
  fun m =>
    match tree_encrypt (_tree (this m)) from leaf (rng m) with
    | (x, r') => (x, {| this := this m; rng := r' |})
    end.

(** [_tree.method(...)] for a method that rewrites the tree. *)
Definition tree_update (f : RatchetTree -> result RatchetTree) : M unit :=
  fun m =>
    match f (_tree (this m)) with
    | Ok t => (Ok tt, {| this := set_tree t (this m); rng := rng m |})
    | Err e => (Err e, m)
    end.

(** operator<<(tls::ostream&, const State&), on an empty stream: what
    tls::marshal(state) returns. *)
Definition marshal (obj : State) : bytes :=
  tls_group_id (_group_id obj) ++ tls_epoch (_epoch obj)
    ++ tls_roster (_roster obj) ++ tls_tree (_tree obj)
    ++ tls_transcript (_transcript obj).

(** operator==(const State&, const State&) *)
Definition state_eqb (lhs rhs : State) : bool :=
  let epoch := (_epoch lhs =? _epoch rhs) in
  let group_id := bool_decide (_group_id lhs = _group_id rhs) in
  let roster := Roster.eqb (_roster lhs) (_roster rhs) in
  let ratchet_tree := tree_eqb (_tree lhs) (_tree rhs) in
  let message_master_secret :=
    bool_decide (_message_master_secret lhs = _message_master_secret rhs) in
  let init_secret := bool_decide (_init_secret lhs = _init_secret rhs) in
  epoch && group_id && roster && ratchet_tree && message_master_secret
    && init_secret.

(** State::derive_epoch_keys.  [*this] is read afresh at each call of
    derive_secret, so the second call sees the message master secret the
    first one produced. *)
Definition derive_epoch_keys (update_secret : bytes) : M unit :=
  self ← get_this;
  let epoch_secret :=
    hkdf_extract (_suite self) (_init_secret self) update_secret in
  self ← get_this;
  modify_this (set_message_master_secret
    (derive_secret (_suite self) epoch_secret "msg" self
       (digest_output_size (_suite self))));;
  self ← get_this;
  modify_this (set_init_secret
    (derive_secret (_suite self) epoch_secret "init" self
       (digest_output_size (_suite self)))).

(** The State derive_epoch_keys leaves behind, written as a function of the
    State it is called on. *)
Definition with_epoch_keys (update_secret : bytes) (s : State) : State :=
  let epoch_secret := hkdf_extract (_suite s) (_init_secret s) update_secret in
  let size := digest_output_size (_suite s) in
  let s1 :=
    set_message_master_secret
      (derive_secret (_suite s) epoch_secret "msg" s size) s in
  set_init_secret (derive_secret (_suite s) epoch_secret "init" s1 size) s1.

(** [*(_tree.root().secret())] *)
Definition root_secret : M bytes :=
  root ← tree_call tree_root;
  lift (deref (node_secret root)).

(** State::update_leaf *)
Definition update_leaf (index : N) (path : RatchetPath)
  (leaf_secret : option bytes) : M unit :=
  match leaf_secret with
  | Some secret => tree_update (fun t => tree_set_leaf t index secret)
  | None =>
      temp_path ← tree_call (fun t => tree_decrypt t index path);
      tree_update (fun t => tree_merge t index temp_path)
  end;;
  update_secret ← root_secret;
  derive_epoch_keys update_secret.

(** [add.init_key.init_keys[0]], the init key State::handle(const Add&)
    takes from the UserInitKey. *)
Definition add_selected_init_key (add : Add) : result bytes :=
  vec_at (init_keys (add_init_key add)) 0.

(** State::handle(const Add&) *)
Definition handle_add (add : Add) : M unit :=
  if negb (user_init_key_verify (add_init_key add))
  then throw (InvalidParameterError
                "Invalid signature on init key in group add")
  else
    init_key ← lift (add_selected_init_key add);
    let identity_key := identity_key (add_init_key add) in
    tree_size ← tree_call (fun t => Ok (tree_size t));
    path ← tree_call (fun t => tree_decrypt t tree_size (add_path add));
    tree_update (fun t => tree_merge t tree_size path);;
    let cred := {| public_key := identity_key |} in
    modify_this (fun s => set_roster (Roster.add (_roster s) cred) s);;
    update_secret ← root_secret;
    derive_epoch_keys update_secret.

(** State::handle(uint32_t, const Update&) *)
Definition handle_update (index : N) (update : Update) : M unit :=
  self ← get_this;
  leaf_secret ←
    (if index =? _index self then
       if (length (_cached_leaf_secret self) =? 0)%nat
       then throw (InvalidParameterError
                     "Got self-update without generating one")
       else
         let leaf_secret := Some (_cached_leaf_secret self) in
         modify_this (set_cached_leaf_secret []);;
         mret leaf_secret
     else mret None);
  update_leaf index (update_path update) leaf_secret.

(** State::handle(uint32_t, const Remove&) *)
Definition handle_remove (index : N) (remove : Remove) : M unit :=
  update_leaf (removed remove) (remove_path remove) None;;
  self ← get_this;
  roster ← lift (Roster.copy (_roster self) (removed remove) index);
  modify_this (set_roster roster).

(** State::handle(uint32_t, const GroupOperation&) const *)
Definition handle_operation (signer_index : N) (operation : GroupOperation)
  : M State :=
  self ← get_this;
  let next := set_epoch (u32 (_epoch self + 1)) self in
  '(_, next) ← on_object next
    match operation with
    | OpAdd add => handle_add add
    | OpUpdate update => handle_update signer_index update
    | OpRemove remove => handle_remove signer_index remove
    end;
  mret next.

(** State::verify *)
Definition verify (signer_index : N) (signature : bytes) : M bool :=
  self ← get_this;
  let tbs := marshal self in
  cred ← lift (Roster.get (_roster self) signer_index);
  mret (signature_verify (public_key cred) tbs signature).

(** State::handle(const Handshake&) const *)
Definition handle (handshake : Handshake) : M State :=
  self ← get_this;
  if negb (prior_epoch handshake =? _epoch self)
  then throw (InvalidParameterError "Epoch mismatch")
  else
    next ← handle_operation (signer_index handshake) (operation handshake);
    '(verified, _) ← on_object next
      (verify (signer_index handshake) (signature handshake));
    if negb verified
    then throw (InvalidParameterError "Invalid handshake message signature")
    else mret next.

(** State::sign *)
Definition sign (operation : GroupOperation) : M Handshake :=
  self ← get_this;
  next ← handle_operation (_index self) operation;
  let tbs := marshal next in
  let sig := signature_sign (_identity_priv self) tbs in
  mret {| prior_epoch := _epoch self; operation := operation;
          signer_index := _index self; signature := sig |}.

(** State::add *)
Definition add (user_init_key : UserInitKey) : M (Welcome * Handshake) :=
  if negb (user_init_key_verify user_init_key)
  then throw (InvalidParameterError "bad signature on user init key")
  else
    self ← get_this;
    let cipher_supported :=
      foldl (fun acc suite => acc || bool_decide (suite = _suite self))
            false (cipher_suites user_init_key) in
    if negb cipher_supported
    then throw (ProtocolError
                  "New member does not support the groups ciphersuite")
    else
      leaf_secret ← random_bytes 32;
      path ← tree_encrypt_call (tree_size (_tree self)) leaf_secret;
      let welcome :=
        {| w_group_id := _group_id self; w_epoch := _epoch self;
           w_cipher_suite := _suite self; w_roster := _roster self;
           w_tree := _tree self; w_transcript := _transcript self;
           w_init_secret := _init_secret self;
           w_leaf_secret := leaf_secret |} in
      add ← sign (OpAdd {| add_path := path;
                           add_init_key := user_init_key |});
      mret (welcome, add).

(** State::update (not const: it records the leaf secret) *)
Definition update (leaf_secret : bytes) : M Handshake :=
  self ← get_this;
  path ← tree_encrypt_call (_index self) leaf_secret;
  modify_this (set_cached_leaf_secret leaf_secret);;
  sign (OpUpdate {| update_path := path |}).

(** State::remove *)
Definition remove (index : N) : M Handshake :=
  evict_secret ← random_bytes 32;
  path ← tree_encrypt_call index evict_secret;
  sign (OpRemove {| removed := index; remove_path := path |}).

(** *** Constructors *)

(** A constructor: the member initialisers give the object [init], then
    the body runs on it; a throw leaves no object. *)
Definition construct (init : State) (body : M unit) (r : N)
  : result State * N :=
  match body {| this := init; rng := r |} with
  | (Ok _, m) => (Ok (this m), rng m)
  | (Err e, m) => (Err e, rng m)
  end.

(** State::State(group_id, suite, identity_priv) *)
Definition new_group (group_id : bytes) (suite : CipherSuite)
  (identity_priv : SignaturePrivateKey) (r : N) : result State * N :=
  construct
    {| _index := 0; _identity_priv := identity_priv; _epoch := 0;
       _group_id := group_id; _suite := suite;
       _message_master_secret := []; _init_secret := zero_bytes 32;
       _tree := tree_new suite (csprng r 32); _roster := [];
       _transcript := []; _cached_leaf_secret := [] |}
    (let cred := {| public_key := signature_public_key identity_priv |} in
     modify_this (fun s => set_roster (Roster.add (_roster s) cred) s))
    (r + 1).

(** The loop of the joining constructor: the first position [i] at which
    [cipher_suites[i]] is the group's suite. *)
Fixpoint join_find_suite (suites : list CipherSuite) (suite : CipherSuite)
  (i : N) : option N :=
  match suites with
  | [] => None
  | s :: rest =>
      if bool_decide (s = suite) then Some i
      else join_find_suite rest suite (i + 1)
  end.

(** State::State(identity_priv, init_secret, welcome, handshake) *)
Definition join (identity_priv : SignaturePrivateKey) (init_secret : bytes)
  (welcome : Welcome) (handshake : Handshake) (r : N) : result State * N :=
  construct
    {| _index := tree_size (w_tree welcome);
       _identity_priv := identity_priv;
       _epoch := u32 (w_epoch welcome + 1);
       _group_id := w_group_id welcome; _suite := w_cipher_suite welcome;
       _message_master_secret := [];
       _init_secret := w_init_secret welcome;
       _tree := w_tree welcome; _roster := w_roster welcome;
       _transcript := w_transcript welcome; _cached_leaf_secret := [] |}
    match operation handshake with
    | OpAdd add =>
        let identity_key := identity_key (add_init_key add) in
        if negb (bool_decide
                   (identity_key = signature_public_key identity_priv))
        then throw (InvalidParameterError
                      "Group add not targeted for this node")
        else
          self ← get_this;
          match join_find_suite (cipher_suites (add_init_key add))
                                (_suite self) 0 with
          | None => throw (ProtocolError
                             "Selected cipher suite not supported")
          | Some i =>
              init_uik ← lift (vec_at (init_keys (add_init_key add)) i);
              if negb (bool_decide
                    (init_uik = dh_derive_public_key (_suite self)
                                                     init_secret))
              then throw (ProtocolError "Incorrect init key")
              else
                let cred := {| public_key := identity_key |} in
                modify_this
                  (fun s => set_roster (Roster.add (_roster s) cred) s);;
                update_leaf (_index self) (add_path add)
                            (Some (w_leaf_secret welcome));;
                verified ← verify (signer_index handshake)
                                  (signature handshake);
                if negb verified
                then throw (InvalidParameterError
                              "Handshake signature failed to verify")
                else mret tt
          end
    | _ => throw (InvalidParameterError "Incorrect handshake type")
    end
    r.

(** *** A member applying handshakes in sequence

    [state = state.handle(h)] for each handshake in turn; the first
    rejection stops the run. *)
Fixpoint handle_all (hs : list Handshake) (s : State) (r : N)
  : result State * N :=
  match hs with
  | [] => (Ok s, r)
  | h :: rest =>
      match handle h {| this := s; rng := r |} with
      | (Ok next, m) => handle_all rest next (rng m)
      | (Err e, m) => (Err e, rng m)
      end
  end.

(** *** create_group *)

(** InitialGroupInfo, held as the two arguments its constructor is given:
    the founder's State and the (Welcome, Handshake) pair for the new
    member. *)
Definition InitialGroupInfo : Type := State * (Welcome * Handshake).

(** The inner loop of create_group: does [my_suite] occur among the other
    party's suites. *)
Fixpoint create_group_offered (my_suite : CipherSuite)
  (others : list CipherSuite) : bool :=
  match others with
  | [] => false
  | other_suite :: rest =>
      if bool_decide (my_suite = other_suite) then true
      else create_group_offered my_suite rest
  end.

(** The outer loop of create_group: the suite it settles on, [None] when
    the loops end with [selected] still false. *)
Fixpoint create_group_negotiate (supported others : list CipherSuite)
  : option CipherSuite :=
  match supported with
  | [] => None
  | my_suite :: rest =>
      if create_group_offered my_suite others then Some my_suite
      else create_group_negotiate rest others
  end.

(** create_group.  When no suite is selected the State is constructed from
    an uninitialised [suite]; the model stops there.  [state.handle(...)]
    is called for its checks only: what it returns is dropped. *)
Definition create_group (group_id : bytes)
  (supported_ciphersuites : list CipherSuite)
  (identity_priv : SignaturePrivateKey) (user_init_key : UserInitKey)
  (r : N) : result InitialGroupInfo * N :=
  match create_group_negotiate supported_ciphersuites
          (cipher_suites user_init_key) with
  | None => (Err (Undefined "uninitialised cipher suite read"), r)
  | Some suite =>
      match new_group group_id suite identity_priv r with
      | (Ok state, r1) =>
          match (welcome_add ← add user_init_key;
                 handle welcome_add.2;;
                 state ← get_this;
                 mret (state, welcome_add)) {| this := state; rng := r1 |}
          with
          | (Ok info, m) => (Ok info, rng m)
          | (Err e, m) => (Err e, rng m)
          end
      | (Err e, r1) => (Err e, r1)
      end
  end.

End StateMachine.

(** ** A small instance of the primitives

    It makes the state machine run on concrete handshakes.  The tree
    follows the specification's description of the ratchet tree for groups
    of up to two leaves, where the direct path of a leaf is the root alone;
    a keyed checksum stands for the hash, and a ciphertext is its
    plaintext. *)
Module Toy.

Definition sum_bytes (b : bytes) : N :=
  foldr (fun x acc => Byte.to_N x + acc) 0 b.

Definition suite_tag (s : CipherSuite) : N :=
  match s with
  | P256_SHA256_AES128GCM => 0
  | P521_SHA512_AES256GCM => 1
  | X25519_SHA256_AES128GCM => 2
  | X448_SHA512_AES256GCM => 3
  end.

(** A keyed two-byte checksum. *)
Definition hmac (key data : bytes) : bytes :=
  [byte_of_u8 (sum_bytes key + 3 * sum_bytes data + N.of_nat (length data));
   byte_of_u8 (7 * sum_bytes key + sum_bytes data + 1)].

Definition suite_hmac (s : CipherSuite) (key data : bytes) : bytes :=
  hmac (byte_of_u8 (suite_tag s) :: key) data.

Definition bytes_of_string (s : string) : bytes := String.list_byte_of_string s.

Definition dh_public (s : CipherSuite) (secret : bytes) : bytes :=
  suite_hmac s (bytes_of_string "dh") secret.

Definition path_step (s : CipherSuite) (secret : bytes) : bytes :=
  suite_hmac s (bytes_of_string "path") secret.

Definition node_of_secret (s : CipherSuite) (secret : bytes)
  : OptionalRatchetTreeNode :=
  {| opt_node := Some {| node_secret := Some secret;
                         node_priv := Some secret;
                         node_pub := dh_public s secret;
                         node_cred := None |};
     opt_hash := [] |}.

Definition node_of_public (pub : bytes) (secret : option bytes)
  : OptionalRatchetTreeNode :=
  {| opt_node := Some {| node_secret := secret; node_priv := secret;
                         node_pub := pub; node_cred := None |};
     opt_hash := [] |}.

Definition blank_node : OptionalRatchetTreeNode :=
  {| opt_node := None; opt_hash := [] |}.

Definition leaves (t : RatchetTree) : N :=
  (N.of_nat (length (tree_nodes t)) + 1) / 2.

(** The root of a left-balanced tree over [n] node slots. *)
Definition root_index (n : nat) : nat :=
  match n with
  | O => O
  | _ => N.to_nat (2 ^ N.log2 (N.of_nat n) - 1)
  end.

(** Grow the node vector with blanks until it holds the slot of [leaf]. *)
Definition grow (nodes : list OptionalRatchetTreeNode) (leaf : N)
  : list OptionalRatchetTreeNode :=
  nodes ++ replicate (N.to_nat (2 * leaf) + 1 - length nodes) blank_node.

Definition write_path (t : RatchetTree) (leaf : N)
  (leaf_node root_node : OptionalRatchetTreeNode) : RatchetTree :=
  let nodes := grow (tree_nodes t) leaf in
  let nodes := <[N.to_nat (2 * leaf) := leaf_node]> nodes in
  let nodes := <[root_index (length nodes) := root_node]> nodes in
  {| tree_suite := tree_suite t; tree_nodes := nodes;
     tree_secret_size := tree_secret_size t |}.

(** Modelled from the spec: RatchetTree::encrypt (ratchet_tree.cpp is not at
    hand): "one entry per node on the sender's direct path (leaf to root)",
    each with the node's new public key; the root's entry carries the path
    secret for the copath.  The root's secret is one KDF step away from
    the leaf secret.  One draw is made for the sealing, as for an
    ephemeral key; a ciphertext being its plaintext here, what was drawn
    does not show in the path. *)
Definition encrypt (t : RatchetTree) (from : N) (leaf : bytes) (r : N)
  : result RatchetPath * N :=
  let s := tree_suite t in
  (Ok [ {| rn_public_key := dh_public s leaf; rn_node_secrets := [] |};
        {| rn_public_key := dh_public s (path_step s leaf);
           rn_node_secrets := [path_step s leaf] |} ], r + 1).

(** Modelled from the spec: RatchetTree::decrypt: recover the path secret
    and check it against the public key sent with it ("mismatch between a
    re-derived public key and the one in the DirectPath is a protocol
    error"); the tree is not touched. *)
Definition decrypt (t : RatchetTree) (from : N) (path : RatchetPath)
  : result RatchetPath :=
  match path with
  | [l; r] =>
      match rn_node_secrets r with
      | [secret] =>
          if bool_decide (rn_public_key r = dh_public (tree_suite t) secret)
          then Ok path
          else Err (ProtocolError "public key mismatch")
      | _ => Err (ProtocolError "malformed path")
      end
  | _ => Err (ProtocolError "malformed path")
  end.

(** Modelled from the spec: RatchetTree::merge: "writes the public keys and
    any recovered secrets into the tree", the leaf's entry into the leaf's
    slot and the root's entry into the root, growing the node vector when
    the leaf is new. *)
Definition merge (t : RatchetTree) (from : N) (path : RatchetPath)
  : result RatchetTree :=
  match path with
  | [l; r] =>
      Ok (write_path t from
            (node_of_public (rn_public_key l) None)
            (node_of_public (rn_public_key r) (head (rn_node_secrets r))))
  | _ => Err (ProtocolError "malformed path")
  end.

(** Modelled from the spec: RatchetTree::set_leaf (set_path in the spec):
    "re-derives the direct path by iterated KDF" from the leaf secret,
    private keys included. *)
Definition set_leaf (t : RatchetTree) (index : N) (leaf : bytes)
  : result RatchetTree :=
  let s := tree_suite t in
  Ok (write_path t index (node_of_secret s leaf)
        (node_of_secret s (path_step s leaf))).

(** Modelled from the spec: RatchetTree::root: the node at the root, which
    must be there. *)
Definition root (t : RatchetTree) : result RatchetTreeNode :=
  match tree_nodes t !! root_index (length (tree_nodes t)) with
  | Some n => deref (opt_node n)
  | None => Err (Undefined "vector index out of range")
  end.

(** Trees are compared on their public part. *)
Definition public_view (t : RatchetTree) : list (option bytes) :=
  map (fun n => node_pub <$> opt_node n) (tree_nodes t).

Definition tree_eq (a b : RatchetTree) : bool :=
  bool_decide (public_view a = public_view b).

(** Encoders: a one-byte length in front of variable-length data, four
    big-endian bytes for a uint32. *)
Definition enc_opaque (b : bytes) : bytes :=
  byte_of_u8 (N.of_nat (length b)) :: b.

Definition enc_u32 (n : N) : bytes :=
  [byte_of_u8 (n / 2 ^ 24); byte_of_u8 (n / 2 ^ 16); byte_of_u8 (n / 2 ^ 8);
   byte_of_u8 n].

Definition enc_roster (r : Roster.t) : bytes :=
  enc_opaque (concat (map (fun c => enc_opaque (public_key c)) r)).

Definition enc_node (n : option bytes) : bytes :=
  match n with
  | Some pub => "001"%byte :: enc_opaque pub
  | None => ["000"%byte]
  end.

Definition enc_tree (t : RatchetTree) : bytes :=
  enc_opaque (concat (map enc_node (public_view t))).

Definition enc_transcript (ops : list GroupOperation) : bytes :=
  [byte_of_u8 (N.of_nat (length ops))].

Definition enc_state (s : State) : bytes :=
  enc_opaque (_group_id s) ++ enc_u32 (_epoch s) ++ enc_roster (_roster s)
    ++ enc_tree (_tree s) ++ enc_transcript (_transcript s).

Definition kdf (s : CipherSuite) (secret : bytes) (label : string)
  (st : State) (size : N) : bytes :=
  match HKDF.expand (suite_hmac s) (S (N.to_nat size)) secret
          (bytes_of_string label ++ enc_state st) (N.to_nat size) with
  | Some okm => okm
  | None => []
  end.

(** A signature is the checksum of the message under the public key, which
    is the private key read backwards. *)
Definition sig_public (priv : bytes) : bytes := rev priv.

Definition sig_sign (priv msg : bytes) : bytes := hmac (sig_public priv) msg.

Definition sig_verify (pub msg sig : bytes) : bool :=
  bool_decide (sig = hmac pub msg).

Definition uik_tbs (k : UserInitKey) : bytes :=
  map (fun s => byte_of_u8 (suite_tag s)) (cipher_suites k)
    ++ concat (map enc_opaque (init_keys k)) ++ enc_opaque (identity_key k).

Definition uik_verify (k : UserInitKey) : bool :=
  sig_verify (identity_key k) (uik_tbs k) (uik_signature k).

#[global] Instance primitives : Primitives := {|
  tree_new := fun s secret =>
    {| tree_suite := s; tree_nodes := [node_of_secret s secret];
       tree_secret_size := 32 |};
  tree_size := leaves;
  tree_encrypt := encrypt;
  tree_decrypt := decrypt;
  tree_merge := merge;
  tree_set_leaf := set_leaf;
  tree_root := root;
  tree_eqb := tree_eq;
  hkdf_extract := suite_hmac;
  derive_secret := kdf;
  digest_output_size := fun _ => 2;
  dh_derive_public_key := dh_public;
  signature_public_key := sig_public;
  signature_sign := sig_sign;
  signature_verify := sig_verify;
  user_init_key_verify := uik_verify;
  csprng := fun n size => replicate (N.to_nat size) (byte_of_u8 (n + 17));
  tls_group_id := enc_opaque;
  tls_epoch := enc_u32;
  tls_roster := enc_roster;
  tls_tree := enc_tree;
  tls_transcript := enc_transcript
|}.

End Toy.

(** ** A two-member group, run on the small instance

    Alice founds the group, adds Bob, rotates her leaf, then removes Bob. *)
Module Scenario.
Import Toy.

Definition suite : CipherSuite := X25519_SHA256_AES128GCM.
Definition group_id : bytes := ["000"%byte].
Definition alice_priv : bytes := bytes_of_string "alice".
Definition bob_priv : bytes := bytes_of_string "bob".
Definition bob_init_secret : bytes := bytes_of_string "bob-init".

(** Call a method on [s] with the CSPRNG at draw [r]. *)
Definition run {A} (c : M A) (s : State) (r : N) : result A * Mem :=
  c {| this := s; rng := r |}.

Definition from_ok {A} (d : A) (x : result A) : A :=
  match x with
  | Ok a => a
  | Err _ => d
  end.

Definition no_state : State :=
  {| _index := 0; _identity_priv := []; _epoch := 0; _group_id := [];
     _suite := suite; _message_master_secret := []; _init_secret := [];
     _tree := {| tree_suite := suite; tree_nodes := [];
                 tree_secret_size := 0 |};
     _roster := []; _transcript := []; _cached_leaf_secret := [] |}.

Definition no_handshake : Handshake :=
  {| prior_epoch := 0; operation := OpUpdate {| update_path := [] |};
     signer_index := 0; signature := [] |}.

Definition no_welcome : Welcome :=
  {| w_group_id := []; w_epoch := 0; w_cipher_suite := suite;
     w_roster := []; w_tree := _tree no_state; w_transcript := [];
     w_init_secret := []; w_leaf_secret := [] |}.

Definition signed_uik (priv : bytes) (suites : list CipherSuite)
  (keys : list bytes) : UserInitKey :=
  let k := {| cipher_suites := suites; init_keys := keys;
              identity_key := sig_public priv; uik_signature := [] |} in
  {| cipher_suites := suites; init_keys := keys;
     identity_key := sig_public priv;
     uik_signature := sig_sign priv (uik_tbs k) |}.

Definition bob_uik : UserInitKey :=
  signed_uik bob_priv [suite] [dh_public suite bob_init_secret].

Definition alice0 : State :=
  from_ok no_state (new_group group_id suite alice_priv 0).1.

Definition welcome_add : Welcome * Handshake :=
  from_ok (no_welcome, no_handshake) (run (add bob_uik) alice0 1).1.

Definition h_add : Handshake := welcome_add.2.

Definition alice1 : State :=
  from_ok no_state (run (handle h_add) alice0 2).1.

Definition bob1 : State :=
  from_ok no_state (join bob_priv bob_init_secret welcome_add.1 h_add 2).1.

Definition alice_leaf_secret : bytes := replicate 32 "001"%byte.

Definition alice_updating : result Handshake * Mem :=
  run (update alice_leaf_secret) alice1 2.

Definition h_update : Handshake := from_ok no_handshake alice_updating.1.

(** Alice after [update]: the leaf secret is cached. *)
Definition alice1' : State := this alice_updating.2.

Definition alice2 : State :=
  from_ok no_state (run (handle h_update) alice1' 2).1.

Definition bob2 : State :=
  from_ok no_state (run (handle h_update) bob1 2).1.

Definition h_remove : Handshake :=
  from_ok no_handshake (run (remove 1) alice2 2).1.

Definition alice3 : State :=
  from_ok no_state (run (handle h_remove) alice2 3).1.

(** A UserInitKey offering two suites, the group's suite second. *)
Definition carol_priv : bytes := bytes_of_string "carol".
Definition carol_init_secret : bytes := bytes_of_string "carol-init".

Definition carol_uik : UserInitKey :=
  signed_uik carol_priv [P256_SHA256_AES128GCM; suite]
    [dh_public P256_SHA256_AES128GCM carol_init_secret;
     dh_public suite carol_init_secret].

(** Alice's signed Add of Carol to the group she has just founded. *)
Definition h_add_carol : Handshake :=
  (from_ok (no_welcome, no_handshake) (run (add carol_uik) alice0 1).1).2.

Definition carol_add : Add :=
  match operation h_add_carol with
  | OpAdd a => a
  | _ => {| add_path := []; add_init_key := carol_uik |}
  end.

(** Alice's Update with the last byte of its signature altered. *)
Definition h_update_tampered : Handshake :=
  {| prior_epoch := prior_epoch h_update; operation := operation h_update;
     signer_index := signer_index h_update;
     signature := take 1 (signature h_update) ++ ["000"%byte] |}.

End Scenario.

(** ** More runs on the small instance *)
Module Scenario2.
Import Toy Scenario.

(** A hash that returns nothing, and one that returns four bytes. *)
Definition hmac_empty (key data : bytes) : bytes := [].

Definition hmac4 (key data : bytes) : bytes :=
  Toy.hmac key data ++ Toy.hmac data key.

(** Alice founds a group for Bob in one call. *)
Definition founded : result InitialGroupInfo * N :=
  create_group group_id [P521_SHA512_AES256GCM; suite] alice_priv
    bob_uik 0.

(** Bob's Update, made at epoch 1. *)
Definition bob_leaf_secret : bytes := replicate 32 "002"%byte.

Definition bob_updating : result Handshake * Mem :=
  run (update bob_leaf_secret) bob1 5.

Definition h_update_bob : Handshake := from_ok no_handshake bob_updating.1.

(** A UserInitKey whose signature does not verify. *)
Definition forged_uik : UserInitKey :=
  {| cipher_suites := cipher_suites bob_uik; init_keys := init_keys bob_uik;
     identity_key := identity_key bob_uik; uik_signature := [] |}.

Definition h_add_forged : Handshake :=
  {| prior_epoch := 0;
     operation := OpAdd {| add_path := add_path (match operation h_add with
                                                 | OpAdd a => a
                                                 | _ => carol_add
                                                 end);
                           add_init_key := forged_uik |};
     signer_index := 0; signature := signature h_add |}.

(** A UserInitKey, well signed, that does not offer the group's suite. *)
Definition dave_uik : UserInitKey :=
  signed_uik (bytes_of_string "dave") [P256_SHA256_AES128GCM]
    [dh_public P256_SHA256_AES128GCM (bytes_of_string "dave-init")].

(** The Add inside Alice's handshake for Bob. *)
Definition add_bob : Add :=
  match operation h_add with
  | OpAdd a => a
  | _ => carol_add
  end.

Definition add_forged : Add :=
  match operation h_add_forged with
  | OpAdd a => a
  | _ => carol_add
  end.

Definition update_bob : Update :=
  match operation h_update_bob with
  | OpUpdate upd => upd
  | _ => {| update_path := [] |}
  end.

(** Alice, her own Update still pending, after Bob's Update. *)
Definition alice2b : State :=
  from_ok no_state (run (handle h_update_bob) alice1' 9).1.

(** Bob after Alice's Update and her Remove. *)
Definition bob3 : State :=
  from_ok no_state (handle_all [h_update; h_remove] bob1 2).1.

(** What create_group returned. *)
Definition founded_info : InitialGroupInfo :=
  from_ok (no_state, (no_welcome, no_handshake)) founded.1.

Definition prk : bytes := bytes_of_string "prk".
Definition info : bytes := bytes_of_string "info".

End Scenario2.

(** ** Variations on the two runs *)
Module Scenario3.
Import Toy Scenario.









End Scenario3.

(** * Properties *)

(** ** HKDF *)

Module HKDFProofs.
Import HKDF.

Section WithDigest.
Variable hmac : bytes -> bytes -> bytes.

Lemma byte_of_u8_mod (n : N) : byte_of_u8 (n mod 256) = byte_of_u8 n.
Proof. unfold byte_of_u8. now rewrite N.Div0.mod_mod. Qed.

Lemma u8_succ (k : nat) :
  (N.of_nat k mod 256 + 1) mod 256 = N.of_nat (S k) mod 256.
Proof.
  rewrite Nat2N.inj_succ, <- N.add_1_r.
  now rewrite N.Div0.add_mod_idemp_l.
Qed.

Lemma rfc_stream_length (prk info : bytes) (n : nat) :
  (forall k m, hmac k m <> []) ->
  (n <= length (rfc_stream hmac prk info n))%nat.
Proof.
  intros Hne. induction n as [|n IH]; [simpl; lia|].
  cbn [rfc_stream]. rewrite length_app.
  assert (1 <= length (rfc_T hmac prk info (S n)))%nat; [|lia].
  cbn [rfc_T]. destruct (hmac _ _) eqn:E; [now apply Hne in E|simpl; lia].
Qed.

(** A shorter stream is a prefix of a longer one. *)
Lemma rfc_stream_prefix (prk info : bytes) (k n : nat) :
  (k <= n)%nat ->
  exists rest, rfc_stream hmac prk info n = rfc_stream hmac prk info k ++ rest.
Proof.
  induction 1 as [|n Hle [rest IH]].
  - exists []. now rewrite app_nil_r.
  - exists (rest ++ rfc_T hmac prk info (S n)).
    cbn [rfc_stream]. now rewrite IH, app_assoc.
Qed.

Lemma rfc_stream_take (prk info : bytes) (L k n : nat) :
  (L <= length (rfc_stream hmac prk info k))%nat ->
  (L <= length (rfc_stream hmac prk info n))%nat ->
  take L (rfc_stream hmac prk info n) = take L (rfc_stream hmac prk info k).
Proof.
  intros Hk Hn. destruct (Nat.le_ge_cases k n) as [Hle|Hle].
  - destruct (rfc_stream_prefix prk info k n Hle) as [rest ->].
    now rewrite take_app_le.
  - destruct (rfc_stream_prefix prk info n k Hle) as [rest ->].
    now rewrite take_app_le.
Qed.

(** The loop, entered after [k] rounds, leaves with some T(1) || ... || T(n)
    of at least [size] bytes, given fuel for the bytes still missing. *)
Lemma expand_loop_rounds (prk info : bytes) (size fuel : nat) :
  (forall k m, hmac k m <> []) ->
  forall k : nat,
    (size - length (rfc_stream hmac prk info k) <= fuel)%nat ->
    exists n : nat,
      expand_loop hmac fuel prk info size (rfc_stream hmac prk info k)
        (N.of_nat k mod 256) (rfc_T hmac prk info k)
      = Some (rfc_stream hmac prk info n)
      /\ (size <= length (rfc_stream hmac prk info n))%nat.
Proof.
  intros Hne. induction fuel as [|fuel IH]; intros k Hfuel.
  - exists k. cbn [expand_loop].
    destruct (Nat.ltb_spec (length (rfc_stream hmac prk info k)) size);
      [lia|]. split; [reflexivity|lia].
  - cbn [expand_loop].
    destruct (Nat.ltb_spec (length (rfc_stream hmac prk info k)) size)
      as [Hlt|Hge].
    + rewrite u8_succ, byte_of_u8_mod.
      change (hmac prk (rfc_T hmac prk info k ++ info
                          ++ [byte_of_u8 (N.of_nat (S k))]))
        with (rfc_T hmac prk info (S k)).
      change (rfc_stream hmac prk info k ++ rfc_T hmac prk info (S k))
        with (rfc_stream hmac prk info (S k)).
      apply IH.
      pose proof (rfc_stream_length prk info (S k) Hne) as Hlen.
      cbn [rfc_stream] in *. rewrite length_app in *.
      assert (1 <= length (rfc_T hmac prk info (S k)))%nat; [|lia].
      cbn [rfc_T]. destruct (hmac _ _) eqn:E; [now apply Hne in E|simpl; lia].
    + exists k. split; [reflexivity|lia].
Qed.

End WithDigest.
End HKDFProofs.

(** C9.  HKDF::extract(salt, ikm) is HMAC(salt, ikm); and, the HMAC never
    returning an empty string, HKDF::expand(prk, info, L) returns, for every
    [prk], [info] and length [L], the first [L] bytes of
    T(1) || T(2) || ..., where T(0) is empty and
    T(i) = HMAC(prk, T(i-1) || info || byte(i)).  [L] rounds of the loop
    always suffice, and the stream T(1) || ... || T(L) has at least [L]
    bytes to take. *)
Theorem hkdf_extract_expand_rfc5869 (hmac : bytes -> bytes -> bytes)
  (prk info : bytes) (L fuel : nat) :
  (forall k m, hmac k m <> []) ->
  (L <= fuel)%nat ->
  (forall salt ikm, HKDF.extract hmac salt ikm = hmac salt ikm)
  /\ HKDF.expand hmac fuel prk info L
     = Some (take L (HKDF.rfc_stream hmac prk info L))
  /\ (L <= length (HKDF.rfc_stream hmac prk info L))%nat.
Proof.
  intros Hne Hfuel. split; [reflexivity|].
  pose proof (HKDFProofs.rfc_stream_length hmac prk info L Hne) as HL.
  split; [|exact HL].
  destruct (HKDFProofs.expand_loop_rounds hmac prk info L fuel Hne 0%nat)
    as (n & Hrun & Hn); [simpl; lia|].
  cbn [HKDF.rfc_stream HKDF.rfc_T] in Hrun.
  change (N.of_nat 0 mod 256) with 0 in Hrun.
  unfold HKDF.expand. rewrite Hrun. f_equal.
  rewrite resize_le by exact Hn.
  now apply HKDFProofs.rfc_stream_take.
Qed.

(** ** The state machine *)

Create HintDb mls_const discriminated.
Create HintDb mls_rng discriminated.

Section Frames.
Context `{Primitives}.

(** *** Const methods *)

Lemma const_ret {A} (a : A) : const_call (mret a).
Proof. now intros m. Qed.

Lemma const_throw {A} (e : error) : const_call (@throw A e).
Proof. now intros m. Qed.

Lemma const_lift {A} (r : result A) : const_call (lift r).
Proof. now intros m. Qed.

Lemma const_get_this : const_call get_this.
Proof. now intros m. Qed.

Lemma const_tree_call {A} (f : RatchetTree -> result A) :
  const_call (tree_call f).
Proof. now intros m. Qed.

Lemma const_random_bytes (n : N) : const_call (random_bytes n).
Proof. now intros m. Qed.

Lemma const_tree_encrypt_call (from : N) (leaf : bytes) :
  const_call (tree_encrypt_call from leaf).
Proof.
  intros m. unfold tree_encrypt_call. now destruct (tree_encrypt _ _ _ _).
Qed.

Lemma const_on_object {A} (obj : State) (c : M A) :
  const_call (on_object obj c).
Proof. intros m. unfold on_object. now destruct (c _) as [[a|e] m']. Qed.

Lemma const_bind {A B} (c : M A) (k : A -> M B) :
  const_call c -> (forall a, const_call (k a)) -> const_call (c ≫= k).
Proof.
  intros Hc Hk m. unfold mbind, M_bind. specialize (Hc m).
  destruct (c m) as [[a|e] m']; simpl in *; [|exact Hc].
  now rewrite Hk.
Qed.

(** *** Methods that leave the CSPRNG alone *)

Lemma no_random_ret {A} (a : A) : no_random (mret a).
Proof. now intros s r r'. Qed.

Lemma no_random_throw {A} (e : error) : no_random (@throw A e).
Proof. now intros s r r'. Qed.

Lemma no_random_lift {A} (x : result A) : no_random (lift x).
Proof. now intros s r r'. Qed.

Lemma no_random_get_this : no_random get_this.
Proof. now intros s r r'. Qed.

Lemma no_random_modify_this (f : State -> State) :
  no_random (modify_this f).
Proof. now intros s r r'. Qed.

Lemma no_random_tree_call {A} (f : RatchetTree -> result A) :
  no_random (tree_call f).
Proof. now intros s r r'. Qed.

Lemma no_random_tree_update (f : RatchetTree -> result RatchetTree) :
  no_random (tree_update f).
Proof.
  intros s r r'. unfold tree_update. simpl. now destruct (f (_tree s)).
Qed.

Lemma no_random_bind {A B} (c : M A) (k : A -> M B) :
  no_random c -> (forall a, no_random (k a)) -> no_random (c ≫= k).
Proof.
  intros Hc Hk s r r'. unfold mbind, M_bind.
  destruct (Hc s r r') as (H1 & H2 & H3).
  pose proof (Hc s r' r) as (_ & _ & H3').
  destruct (c {| this := s; rng := r |}) as [x [s1 r1]].
  destruct (c {| this := s; rng := r' |}) as [x' [s1' r1']].
  simpl in *. subst. destruct x' as [a|e]; [apply Hk|done].
Qed.

Lemma no_random_on_object {A} (obj : State) (c : M A) :
  no_random c -> no_random (on_object obj c).
Proof.
  intros Hc s r r'. unfold on_object. simpl.
  destruct (Hc obj r r') as (H1 & H2 & H3).
  pose proof (Hc obj r' r) as (_ & _ & H3').
  destruct (c {| this := obj; rng := r |}) as [x [s1 r1]].
  destruct (c {| this := obj; rng := r' |}) as [x' [s1' r1']].
  simpl in *. subst. now destruct x'.
Qed.

End Frames.

#[global] Hint Resolve const_ret const_throw const_lift const_get_this
  const_tree_call const_random_bytes const_tree_encrypt_call
  const_on_object : mls_const.
#[global] Hint Resolve no_random_ret no_random_throw no_random_lift
  no_random_get_this no_random_modify_this no_random_tree_call
  no_random_tree_update : mls_rng.

(** Walk down a method body: binds, conditionals and matches first, then
    the calls it is made of. *)
Ltac frame_steps bind_lemma db :=
  repeat match goal with
  | |- _ (_ ≫= _) => apply bind_lemma; [|intros]
  | |- no_random (on_object _ _) => apply @no_random_on_object
  | |- _ (if ?b then _ else _) => destruct b
  | |- _ (match ?x with _ => _ end) => destruct x
  | |- _ (let _ := _ in _) => cbv zeta
  end;
  eauto with db.

Section Handlers.
Context `{Primitives}.

Lemma no_random_derive_epoch_keys (update_secret : bytes) :
  no_random (derive_epoch_keys update_secret).
Proof. unfold derive_epoch_keys. frame_steps @no_random_bind mls_rng. Qed.

Lemma no_random_root_secret : no_random root_secret.
Proof. unfold root_secret. frame_steps @no_random_bind mls_rng. Qed.

Hint Resolve no_random_derive_epoch_keys no_random_root_secret : mls_rng.

Lemma no_random_update_leaf (index : N) (path : RatchetPath)
  (leaf_secret : option bytes) :
  no_random (update_leaf index path leaf_secret).
Proof. unfold update_leaf. frame_steps @no_random_bind mls_rng. Qed.

Hint Resolve no_random_update_leaf : mls_rng.

Lemma no_random_handle_add (a : Add) : no_random (handle_add a).
Proof. unfold handle_add. frame_steps @no_random_bind mls_rng. Qed.

Lemma no_random_handle_update (index : N) (u : Update) :
  no_random (handle_update index u).
Proof. unfold handle_update. frame_steps @no_random_bind mls_rng. Qed.

Lemma no_random_handle_remove (index : N) (rm : Remove) :
  no_random (handle_remove index rm).
Proof. unfold handle_remove. frame_steps @no_random_bind mls_rng. Qed.

Lemma no_random_verify (signer : N) (sig : bytes) :
  no_random (verify signer sig).
Proof. unfold verify. frame_steps @no_random_bind mls_rng. Qed.

Hint Resolve no_random_handle_add no_random_handle_update
  no_random_handle_remove no_random_verify no_random_on_object : mls_rng.

Lemma no_random_handle_operation (signer : N) (op : GroupOperation) :
  no_random (handle_operation signer op).
Proof. unfold handle_operation. frame_steps @no_random_bind mls_rng. Qed.

Hint Resolve no_random_handle_operation : mls_rng.

Lemma no_random_handle (h : Handshake) : no_random (handle h).
Proof. unfold handle. frame_steps @no_random_bind mls_rng. Qed.

Lemma const_handle_operation (signer : N) (op : GroupOperation) :
  const_call (handle_operation signer op).
Proof. unfold handle_operation. frame_steps @const_bind mls_const. Qed.

Hint Resolve const_handle_operation : mls_const.

Lemma const_handle (h : Handshake) : const_call (handle h).
Proof. unfold handle. frame_steps @const_bind mls_const. Qed.

End Handlers.

#[global] Hint Resolve const_handle_operation const_handle : mls_const.
#[global] Hint Resolve no_random_derive_epoch_keys no_random_root_secret
  no_random_update_leaf no_random_handle_operation no_random_handle
  : mls_rng.

(** *** Reading a successful run back

    Each lemma takes a method that returned and says which calls it made
    and what it left in the store. *)

Section Runs.
Context `{Primitives}.

Lemma bind_ok {A B} (c : M A) (k : A -> M B) (m m' : Mem) (b : B) :
  (c ≫= k) m = (Ok b, m') ->
  exists a m1, c m = (Ok a, m1) /\ k a m1 = (Ok b, m').
Proof.
  unfold mbind, M_bind. destruct (c m) as [[a|e] m1]; [|discriminate].
  intros Hk. now exists a, m1.
Qed.

Lemma tree_update_ok (f : RatchetTree -> result RatchetTree) (m m' : Mem)
  (u : unit) :
  tree_update f m = (Ok u, m') ->
  exists t, f (_tree (this m)) = Ok t
            /\ m' = {| this := set_tree t (this m); rng := rng m |}.
Proof.
  unfold tree_update. destruct (f (_tree (this m))) as [t|e];
    [|discriminate].
  intros [= _ <-]. now exists t.
Qed.

Lemma derive_epoch_keys_run (update_secret : bytes) (m : Mem) :
  derive_epoch_keys update_secret m
  = (Ok tt, {| this := with_epoch_keys update_secret (this m);
               rng := rng m |}).
Proof. reflexivity. Qed.

End Runs.

(** Split a returned method body into the calls it made. *)
Ltac read_run :=
  repeat match goal with
  | H : (_ ≫= _) _ = (Ok _, _) |- _ =>
      apply bind_ok in H as (? & ? & ? & H); cbv beta in H
  | H : derive_epoch_keys _ _ = _ |- _ =>
      rewrite derive_epoch_keys_run in H
  | H : get_this _ = _ |- _ => unfold get_this in H
  | H : modify_this _ _ = _ |- _ => unfold modify_this in H
  | H : lift _ _ = _ |- _ => unfold lift in H
  | H : mret _ _ = _ |- _ => unfold mret, M_ret in H
  | H : throw _ _ = _ |- _ => discriminate H
  | H : tree_call _ _ = _ |- _ => unfold tree_call in H
  | H : tree_update _ _ = (Ok _, _) |- _ =>
      apply tree_update_ok in H as (? & ? & ?)
  | H : (_, _) = (_, _) |- _ => injection H as ? ?
  | H : Ok _ = Ok _ |- _ => injection H as ?
  | H : (if ?b then _ else _) _ = _ |- _ => destruct b eqn:?
  | H : (match ?x with _ => _ end) _ = _ |- _ => destruct x eqn:?
  | _ => progress subst
  | _ => progress cbn [this rng fst snd] in *
  end.

Section RunsOfHandlers.
Context `{Primitives}.

Lemma root_secret_ok (m m' : Mem) (update_secret : bytes) :
  root_secret m = (Ok update_secret, m') ->
  m' = m
  /\ exists root, tree_root (_tree (this m)) = Ok root
                  /\ node_secret root = Some update_secret.
Proof.
  unfold root_secret. intros Hrun. read_run.
  split; [reflexivity|]. eexists. split; [eassumption|].
  match goal with
  | Hd : deref ?o = Ok _ |- _ => now destruct o; simplify_eq/=
  end.
Qed.

Lemma update_leaf_ok (index : N) (path : RatchetPath)
  (leaf_secret : option bytes) (m m' : Mem) (u : unit) :
  update_leaf index path leaf_secret m = (Ok u, m') ->
  exists t root update_secret,
    match leaf_secret with
    | Some secret => tree_set_leaf (_tree (this m)) index secret = Ok t
    | None =>
        exists temp_path,
          tree_decrypt (_tree (this m)) index path = Ok temp_path
          /\ tree_merge (_tree (this m)) index temp_path = Ok t
    end
    /\ tree_root t = Ok root
    /\ node_secret root = Some update_secret
    /\ m' = {| this := with_epoch_keys update_secret (set_tree t (this m));
               rng := rng m |}.
Proof.
  unfold update_leaf. intros Hrun.
  apply bind_ok in Hrun as (? & m1 & Htree & Hrun).
  apply bind_ok in Hrun as (us & m2 & Hroot & Hrun).
  apply root_secret_ok in Hroot as (-> & root & Hroot & Hsecret).
  rewrite derive_epoch_keys_run in Hrun. injection Hrun as <-.
  destruct leaf_secret as [secret|]; read_run;
    (eexists; exists root, us; split; [|done]); eauto.
Qed.

Lemma handle_add_ok (a : Add) (m m' : Mem) (u : unit) :
  handle_add a m = (Ok u, m') ->
  user_init_key_verify (add_init_key a) = true
  /\ exists init_key path t root update_secret,
       add_selected_init_key a = Ok init_key
       /\ tree_decrypt (_tree (this m)) (tree_size (_tree (this m)))
            (add_path a) = Ok path
       /\ tree_merge (_tree (this m)) (tree_size (_tree (this m))) path
          = Ok t
       /\ tree_root t = Ok root
       /\ node_secret root = Some update_secret
       /\ m' = {| this :=
                    with_epoch_keys update_secret
                      (set_roster
                         (Roster.add (_roster (this m))
                            {| public_key :=
                                 identity_key (add_init_key a) |})
                         (set_tree t (this m)));
                  rng := rng m |}.
Proof.
  unfold handle_add. intros Hrun.
  destruct (user_init_key_verify (add_init_key a)); [|discriminate Hrun].
  split; [reflexivity|]. cbn [negb] in Hrun.
  apply bind_ok in Hrun as (k & ? & Hkey & Hrun).
  apply bind_ok in Hrun as (size & ? & Hsize & Hrun).
  apply bind_ok in Hrun as (path & ? & Hdec & Hrun).
  apply bind_ok in Hrun as (? & ? & Hmerge & Hrun).
  apply bind_ok in Hrun as (? & ? & Hroster & Hrun).
  apply bind_ok in Hrun as (us & ? & Hroot & Hrun).
  apply root_secret_ok in Hroot as (-> & root & Hroot & Hsecret).
  read_run. exists k, path. eexists. exists root, us.
  repeat split; eauto.
Qed.

Lemma handle_update_ok (index : N) (upd : Update) (m m' : Mem) (u : unit) :
  handle_update index upd m = (Ok u, m') ->
  exists t root update_secret,
    tree_root t = Ok root
    /\ node_secret root = Some update_secret
    /\ if index =? _index (this m) then
         _cached_leaf_secret (this m) <> []
         /\ tree_set_leaf (_tree (this m)) index
              (_cached_leaf_secret (this m)) = Ok t
         /\ m' = {| this :=
                      with_epoch_keys update_secret
                        (set_tree t (set_cached_leaf_secret [] (this m)));
                    rng := rng m |}
       else
         exists temp_path,
           tree_decrypt (_tree (this m)) index (update_path upd)
           = Ok temp_path
           /\ tree_merge (_tree (this m)) index temp_path = Ok t
           /\ m' = {| this :=
                        with_epoch_keys update_secret (set_tree t (this m));
                      rng := rng m |}.
Proof.
  unfold handle_update. intros Hrun.
  apply bind_ok in Hrun as (self & ? & Hself & Hrun).
  apply bind_ok in Hrun as (ls & m1 & Hcache & Hrun).
  apply update_leaf_ok in Hrun as (t & root & us & Htree & Hroot & Hsec & ->).
  exists t, root, us. split; [exact Hroot|]. split; [exact Hsec|].
  unfold get_this in Hself. injection Hself as <- <-.
  destruct (index =? _index (this m)).
  - destruct (_cached_leaf_secret (this m)) as [|b cached] eqn:Hcached;
      [discriminate Hcache|].
    cbn [length Nat.eqb] in Hcache. read_run.
    split; [discriminate|]. split; [assumption|reflexivity].
  - read_run. destruct Htree as (tp & Hdec & Hmerge). now exists tp.
Qed.

Lemma handle_remove_ok (index : N) (rm : Remove) (m m' : Mem) (u : unit) :
  handle_remove index rm m = (Ok u, m') ->
  exists temp_path t root update_secret roster,
    tree_decrypt (_tree (this m)) (removed rm) (remove_path rm)
    = Ok temp_path
    /\ tree_merge (_tree (this m)) (removed rm) temp_path = Ok t
    /\ tree_root t = Ok root
    /\ node_secret root = Some update_secret
    /\ Roster.copy (_roster (this m)) (removed rm) index = Ok roster
    /\ m' = {| this :=
                 set_roster roster
                   (with_epoch_keys update_secret (set_tree t (this m)));
               rng := rng m |}.
Proof.
  unfold handle_remove. intros Hrun.
  apply bind_ok in Hrun as (? & m1 & Hleaf & Hrun).
  apply update_leaf_ok in Hleaf
    as (t & root & us & (tp & Hdec & Hmerge) & Hroot & Hsec & ->).
  read_run. exists tp, t, root, us. eexists. repeat split; eauto.
Qed.

Lemma handle_operation_ok (signer : N) (op : GroupOperation)
  (s : State) (r : N) (m' : Mem) (next : State) :
  handle_operation signer op {| this := s; rng := r |} = (Ok next, m') ->
  match op with
  | OpAdd a => handle_add a
  | OpUpdate upd => handle_update signer upd
  | OpRemove rm => handle_remove signer rm
  end {| this := set_epoch (u32 (_epoch s + 1)) s; rng := r |}
  = (Ok tt, {| this := next; rng := r |}).
Proof.
  intros Hrun.
  destruct (no_random_handle_operation signer op s r r) as (_ & _ & Hrng).
  rewrite Hrun in Hrng. cbn [snd] in Hrng.
  unfold handle_operation in Hrun.
  apply bind_ok in Hrun as (self & ? & Hself & Hrun).
  unfold get_this in Hself. injection Hself as <- <-. cbn [this] in Hrun.
  apply bind_ok in Hrun as ([[] n] & m1 & Hinner & Hrun).
  unfold mret, M_ret in Hrun. injection Hrun as -> ->.
  unfold on_object in Hinner. cbn [this rng] in Hinner.
  destruct (match op with
            | OpAdd a => handle_add a
            | OpUpdate upd => handle_update signer upd
            | OpRemove rm => handle_remove signer rm
            end {| this := set_epoch (u32 (_epoch s + 1)) s; rng := r |})
    as [[[]|e] [s' r']]; [|discriminate Hinner].
  cbn [this rng] in *. injection Hinner as -> <-. now cbn [rng] in Hrng; subst.
Qed.

End RunsOfHandlers.

Section Successor.
Context `{Primitives}.

(** What a successful [handle] went through. *)
Lemma handle_ok (h : Handshake) (s : State) (r : N) (next : State) :
  (handle h {| this := s; rng := r |}).1 = Ok next ->
  prior_epoch h = _epoch s
  /\ handle_operation (signer_index h) (operation h) {| this := s; rng := r |}
     = (Ok next, {| this := s; rng := r |})
  /\ exists cred,
       Roster.get (_roster next) (signer_index h) = Ok cred
       /\ signature_verify (public_key cred) (marshal next) (signature h)
          = true.
Proof.
  intros Hrun.
  pose proof (const_handle_operation (signer_index h) (operation h)
                {| this := s; rng := r |}) as Hconst.
  destruct (no_random_handle_operation (signer_index h) (operation h) s r r)
    as (_ & _ & Hrng).
  unfold handle in Hrun. unfold mbind, M_bind, get_this in Hrun.
  cbn [this rng fst snd] in Hrun.
  destruct (N.eqb_spec (prior_epoch h) (_epoch s)) as [He|He];
    [|discriminate Hrun].
  split; [exact He|]. cbn [negb] in Hrun.
  destruct (handle_operation (signer_index h) (operation h)
              {| this := s; rng := r |}) as [[n|e] [s' r']];
    [|discriminate Hrun].
  cbn [this rng fst snd] in *. subst s' r'.
  unfold on_object, verify, lift, mbind, M_bind, get_this, mret, M_ret,
    throw in Hrun.
  cbn [this rng fst snd] in Hrun.
  destruct (Roster.get (_roster n) (signer_index h)) as [cred|e] eqn:Hget;
    [|discriminate Hrun].
  destruct (signature_verify (public_key cred) (marshal n) (signature h))
    eqn:Hsig; cbn [negb fst] in Hrun; [|discriminate Hrun].
  injection Hrun as <-. split; [reflexivity|]. now exists cred.
Qed.

(** The successor carries the receiver's epoch plus one. *)
Lemma handle_operation_epoch (signer : N) (op : GroupOperation)
  (s : State) (r : N) (m' : Mem) (next : State) :
  handle_operation signer op {| this := s; rng := r |} = (Ok next, m') ->
  _epoch next = u32 (_epoch s + 1).
Proof.
  intros Hrun. apply handle_operation_ok in Hrun.
  destruct op as [a|upd|rm].
  - apply handle_add_ok in Hrun as (_ & ? & ? & ? & ? & ? & Hrest).
    destruct Hrest as (_ & _ & _ & _ & _ & Hnext).
    now injection Hnext as ->.
  - apply handle_update_ok in Hrun as (? & ? & ? & _ & _ & Hcase).
    destruct (signer =? _) in Hcase.
    + destruct Hcase as (_ & _ & Hnext). now injection Hnext as ->.
    + destruct Hcase as (? & _ & _ & Hnext). now injection Hnext as ->.
  - apply handle_remove_ok in Hrun as (? & ? & ? & ? & ? & Hrest).
    destruct Hrest as (_ & _ & _ & _ & _ & Hnext).
    now injection Hnext as ->.
Qed.

Lemma u32_succ_neq (e : N) : u32 (e + 1) <> e.
Proof.
  unfold u32. intros Heq.
  assert (Hlt : (e + 1) mod 2 ^ 32 < 2 ^ 32) by (apply N.mod_lt; lia).
  rewrite Heq in Hlt.
  destruct (N.lt_ge_cases (e + 1) (2 ^ 32)) as [Hs|Hs].
  - rewrite N.mod_small in Heq by exact Hs. lia.
  - assert (e + 1 = 2 ^ 32) as Hmax by lia.
    rewrite Hmax, N.Div0.mod_same in Heq. lia.
Qed.

End Successor.

(** C1.  [s.handle(h)] leaves the receiver as it was, in every field, and
    the CSPRNG with it, whether it returns or throws; and a State it returns
    is another State than [s]: its epoch is the receiver's plus one. *)
Theorem handle_leaves_receiver_unchanged `{Primitives}
  (h : Handshake) (s : State) (r : N) :
  (handle h {| this := s; rng := r |}).2 = {| this := s; rng := r |}
  /\ (forall e, (handle h {| this := s; rng := r |}).1 = Err e ->
        this (handle h {| this := s; rng := r |}).2 = s)
  /\ (forall next, (handle h {| this := s; rng := r |}).1 = Ok next ->
        next <> s /\ _epoch next = u32 (_epoch s + 1)).
Proof.
  assert (Hframe :
    (handle h {| this := s; rng := r |}).2 = {| this := s; rng := r |}).
  { pose proof (const_handle h {| this := s; rng := r |}) as Hthis.
    destruct (no_random_handle h s r r) as (_ & _ & Hrng).
    destruct (handle h {| this := s; rng := r |}) as [x [s' r']].
    simpl in *. now subst. }
  split; [exact Hframe|]. split.
  - intros e _. now rewrite Hframe.
  - intros next Hok. apply handle_ok in Hok as (_ & Hop & _).
    apply handle_operation_epoch in Hop. cbn [this] in Hop.
    split; [|exact Hop].
    intros ->. symmetry in Hop. now apply u32_succ_neq in Hop.
Qed.

(** C2.  A handshake whose prior epoch is not the receiver's epoch is
    rejected with InvalidParameterError("Epoch mismatch"), the receiver
    untouched.  This holds whatever the tree, the signature scheme and the
    other primitives do, so nothing is dispatched or verified before the
    epoch is compared. *)
Theorem handle_rejects_epoch_mismatch `{Primitives}
  (h : Handshake) (s : State) (r : N) :
  prior_epoch h <> _epoch s ->
  handle h {| this := s; rng := r |}
  = (Err (InvalidParameterError "Epoch mismatch"), {| this := s; rng := r |}).
Proof.
  intros Hne. unfold handle, mbind, M_bind, get_this, throw.
  cbn [this rng].
  now destruct (N.eqb_spec (prior_epoch h) (_epoch s)).
Qed.



Section InitKeys.
Context `{Primitives}.



End InitKeys.



(** C5, as stated, fails: Alice removes Bob (leaf 1) from the two-member
    group; the handshake is accepted and in the successor the slot of leaf 1
    is occupied, by the public key the Remove's path carries for it. *)
Lemma remove_leaves_slot_occupied :
  (exists path, operation Scenario.h_remove
                = OpRemove {| removed := 1; remove_path := path |})
  /\ (handle Scenario.h_remove {| this := Scenario.alice2; rng := 3 |}).1
     = Ok Scenario.alice3
  /\ leaf_blank (_tree Scenario.alice2) 1 = false
  /\ leaf_blank (_tree Scenario.alice3) 1 = false.
Proof.
  split; [eexists; vm_compute; reflexivity|].
  repeat match goal with |- _ /\ _ => split end; vm_compute; reflexivity.
Qed.

(** C5, amended.  When [handle] applies Remove{removed, path} signed by
    [signer], the successor's tree is the receiver's tree with the path
    decrypted and merged at leaf [removed], as for an Update coming from
    that leaf (nothing is blanked by [handle]); the roster entry at index
    [removed] is overwritten with the signer's credential, and the roster
    keeps its length. *)
Theorem remove_merges_path_and_copies_credential `{Primitives}
  (h : Handshake) (rm : Remove) (s : State) (r : N) (next : State) :
  operation h = OpRemove rm ->
  (handle h {| this := s; rng := r |}).1 = Ok next ->
  (exists temp_path,
     tree_decrypt (_tree s) (removed rm) (remove_path rm) = Ok temp_path
     /\ tree_merge (_tree s) (removed rm) temp_path = Ok (_tree next))
  /\ (forall upd u m',
        update_path upd = remove_path rm ->
        removed rm <> _index s ->
        handle_update (removed rm) upd
          {| this := set_epoch (u32 (_epoch s + 1)) s; rng := r |}
        = (Ok u, m') ->
        _tree (this m') = _tree next)
  /\ (exists cred,
        _roster s !! N.to_nat (signer_index h) = Some cred
        /\ _roster next = <[N.to_nat (removed rm) := cred]> (_roster s)
        /\ _roster next !! N.to_nat (removed rm) = Some cred)
  /\ length (_roster next) = length (_roster s).
Proof.
  intros Hop Hok. apply handle_ok in Hok as (_ & Hrun & _).
  rewrite Hop in Hrun. apply handle_operation_ok in Hrun.
  apply handle_remove_ok in Hrun
    as (tp & t & root & us & roster & Hdec & Hmerge & _ & _ & Hcopy & Hnext).
  injection Hnext as ->. cbn [this _tree _roster set_epoch] in *.
  split; [now exists tp|]. split.
  - intros upd u m' Hpath Hother Hupd.
    apply handle_update_ok in Hupd as (t' & ? & ? & _ & _ & Hcase).
    cbn [this _index set_epoch] in Hcase.
    destruct (N.eqb_spec (removed rm) (_index s)) as [|_]; [done|].
    destruct Hcase as (tp' & Hdec' & Hmerge' & ->).
    simpl in *. rewrite Hpath in Hdec'. congruence.
  - unfold Roster.copy, vec_at in Hcopy.
    destruct (_roster s !! N.to_nat (signer_index h)) as [cred|] eqn:Hcred;
      [|discriminate Hcopy].
    destruct (Nat.ltb_spec (N.to_nat (removed rm)) (length (_roster s)))
      as [Hlt|]; [|discriminate Hcopy].
    injection Hcopy as <-. cbn. split.
    + exists cred. split; [reflexivity|]. split; [reflexivity|].
      now apply list_lookup_insert_eq.
    + apply length_insert.
Qed.

(** C6.  Once the epoch check has passed and the operation has been
    applied, giving [next], [handle] verifies the handshake's signature over
    the encoding of [next], which is group_id, epoch, roster, tree and
    transcript in that order, under the public key of the credential at
    [roster[signer_index]] of [next]; it returns [next] when the signature
    verifies and throws otherwise. *)
Theorem handle_verifies_signature_over_successor `{Primitives}
  (h : Handshake) (s : State) (r : N) (next : State) (cred : Credential) :
  prior_epoch h = _epoch s ->
  (handle_operation (signer_index h) (operation h)
     {| this := s; rng := r |}).1 = Ok next ->
  Roster.get (_roster next) (signer_index h) = Ok cred ->
  let tbs :=
    tls_group_id (_group_id next) ++ tls_epoch (_epoch next)
      ++ tls_roster (_roster next) ++ tls_tree (_tree next)
      ++ tls_transcript (_transcript next) in
  marshal next = tbs
  /\ handle h {| this := s; rng := r |}
     = (if signature_verify (public_key cred) tbs (signature h)
        then Ok next
        else Err (InvalidParameterError
                    "Invalid handshake message signature"),
        {| this := s; rng := r |}).
Proof.
  intros He Hop Hcred tbs. split; [reflexivity|].
  pose proof (const_handle_operation (signer_index h) (operation h)
                {| this := s; rng := r |}) as Hconst.
  destruct (no_random_handle_operation (signer_index h) (operation h) s r r)
    as (_ & _ & Hrng).
  unfold handle, mbind, M_bind, get_this. cbn [this rng].
  rewrite He, N.eqb_refl. cbn [negb].
  destruct (handle_operation (signer_index h) (operation h)
              {| this := s; rng := r |}) as [x [s' r']].
  cbn [fst snd this rng] in *. subst x s' r'.
  unfold on_object, verify, mbind, M_bind, get_this, lift, mret, M_ret,
    throw.
  cbn [this rng]. rewrite Hcred. fold tbs.
  change (marshal next) with tbs.
  now destruct (signature_verify (public_key cred) tbs (signature h)).
Qed.

Section SelfUpdate.
Context `{Primitives}.

Lemma const_sign (op : GroupOperation) : const_call (sign op).
Proof. unfold sign. frame_steps @const_bind mls_const. Qed.

(** A self-update with nothing cached throws, the object as it was. *)
Lemma handle_update_no_cache (index : N) (upd : Update) (m : Mem) :
  index = _index (this m) ->
  _cached_leaf_secret (this m) = [] ->
  handle_update index upd m
  = (Err (InvalidParameterError "Got self-update without generating one"),
     m).
Proof.
  intros -> Hcache. unfold handle_update, mbind, M_bind, get_this, throw.
  cbn [this rng]. now rewrite N.eqb_refl, Hcache.
Qed.

Lemma handle_self_update_no_cache (h : Handshake) (upd : Update)
  (s : State) (r : N) :
  operation h = OpUpdate upd ->
  signer_index h = _index s ->
  _cached_leaf_secret s = [] ->
  handle h {| this := s; rng := r |}
  = (Err (InvalidParameterError
            (if prior_epoch h =? _epoch s
             then "Got self-update without generating one"
             else "Epoch mismatch")),
     {| this := s; rng := r |}).
Proof.
  intros Hop Hself Hcache.
  unfold handle, mbind, M_bind, get_this, throw. cbn [this rng].
  destruct (prior_epoch h =? _epoch s); [|reflexivity]. cbn [negb].
  unfold handle_operation, on_object, mbind, M_bind, get_this.
  cbn [this rng]. rewrite Hop, handle_update_no_cache; [reflexivity| |];
    cbn [this]; assumption.
Qed.

End SelfUpdate.

(** C7.  Take an Update whose signer is the receiver's own leaf, at the
    receiver's epoch.  With an empty cached leaf secret [handle] throws
    InvalidParameterError("Got self-update without generating one"), the
    receiver untouched.  When [handle] returns, the cache was not empty, the
    successor's tree is the receiver's tree with the own leaf set from the
    cached secret (set_leaf, no decryption), and the successor's cache is
    empty, so any further self-update applied to the successor throws an
    InvalidParameterError.  The cache is what [update] wrote: once the path
    is encrypted, [update(leaf_secret)] leaves [leaf_secret] cached. *)
Theorem self_update_consumes_cached_secret `{Primitives}
  (h : Handshake) (upd : Update) (s : State) (r : N) :
  operation h = OpUpdate upd ->
  signer_index h = _index s ->
  prior_epoch h = _epoch s ->
  (_cached_leaf_secret s = [] ->
   handle h {| this := s; rng := r |}
   = (Err (InvalidParameterError "Got self-update without generating one"),
      {| this := s; rng := r |}))
  /\ (forall next,
        (handle h {| this := s; rng := r |}).1 = Ok next ->
        _cached_leaf_secret s <> []
        /\ tree_set_leaf (_tree s) (_index s) (_cached_leaf_secret s)
           = Ok (_tree next)
        /\ _cached_leaf_secret next = []
        /\ _index next = _index s
        /\ forall h2 upd2 r2,
             operation h2 = OpUpdate upd2 ->
             signer_index h2 = _index next ->
             handle h2 {| this := next; rng := r2 |}
             = (Err (InvalidParameterError
                       (if prior_epoch h2 =? _epoch next
                        then "Got self-update without generating one"
                        else "Epoch mismatch")),
                {| this := next; rng := r2 |}))
  /\ (forall leaf_secret path,
        (tree_encrypt (_tree s) (_index s) leaf_secret r).1 = Ok path ->
        _cached_leaf_secret (this (update leaf_secret
                                     {| this := s; rng := r |}).2)
        = leaf_secret).
Proof.
  intros Hop Hself He. split; [|split].
  - intros Hcache.
    rewrite (handle_self_update_no_cache h upd s r Hop Hself Hcache).
    now rewrite He, N.eqb_refl.
  - intros next Hok. apply handle_ok in Hok as (_ & Hrun & _).
    rewrite Hop in Hrun. apply handle_operation_ok in Hrun.
    apply handle_update_ok in Hrun as (t & root & us & _ & _ & Hcase).
    cbn [this rng _index set_epoch] in Hcase.
    rewrite Hself, N.eqb_refl in Hcase.
    destruct Hcase as (Hne & Hset & Hnext). injection Hnext as ->.
    simpl in *. repeat match goal with |- _ /\ _ => split end;
      try done.
    intros h2 upd2 r2 Hop2 Hself2.
    now apply (handle_self_update_no_cache h2 upd2).
  - intros leaf_secret path Henc.
    unfold update, mbind, M_bind, get_this, tree_encrypt_call, modify_this.
    cbn [this rng].
    destruct (tree_encrypt (_tree s) (_index s) leaf_secret r) as [x r1].
    cbn [fst] in Henc. subst x.
    pose proof (const_sign (OpUpdate {| update_path := path |})
      {| this := set_cached_leaf_secret leaf_secret s; rng := r1 |}) as Hc.
    destruct (sign _ _) as [x m']. cbn [snd this] in *. now rewrite Hc.
Qed.

Section Sequences.
Context `{Primitives}.


End Sequences.



(** C10.  operator== on States is the conjunction of the comparisons of
    epoch, group id, roster, tree, message master secret and init secret,
    and of nothing else: replacing the own leaf index, the identity private
    key, the cipher suite, the transcript and the cached leaf secret of
    either operand changes nothing to the answer, and a State compares equal
    to any State differing from it in those five fields only (as soon as
    its tree equals itself). *)
Theorem state_eq_compares_six_fields `{Primitives} (lhs rhs : State)
  (index : N) (identity_priv : SignaturePrivateKey) (suite : CipherSuite)
  (transcript : list GroupOperation) (cached_leaf_secret : bytes) :
  let other (s : State) : State :=
    {| _index := index; _identity_priv := identity_priv;
       _epoch := _epoch s; _group_id := _group_id s; _suite := suite;
       _message_master_secret := _message_master_secret s;
       _init_secret := _init_secret s; _tree := _tree s;
       _roster := _roster s; _transcript := transcript;
       _cached_leaf_secret := cached_leaf_secret |} in
  (state_eqb lhs rhs = true <->
     _epoch lhs = _epoch rhs
     /\ _group_id lhs = _group_id rhs
     /\ _roster lhs = _roster rhs
     /\ tree_eqb (_tree lhs) (_tree rhs) = true
     /\ _message_master_secret lhs = _message_master_secret rhs
     /\ _init_secret lhs = _init_secret rhs)
  /\ state_eqb lhs (other rhs) = state_eqb lhs rhs
  /\ state_eqb (other lhs) rhs = state_eqb lhs rhs
  /\ state_eqb lhs (other lhs) = tree_eqb (_tree lhs) (_tree lhs).
Proof.
  intros other. split; [|split; [reflexivity|split; [reflexivity|]]].
  - unfold state_eqb, Roster.eqb.
    rewrite !andb_true_iff, N.eqb_eq, !bool_decide_eq_true. tauto.
  - unfold state_eqb, Roster.eqb, other. cbn.
    rewrite N.eqb_refl, !bool_decide_eq_true_2 by reflexivity.
    cbn [andb]. now rewrite !andb_true_r.
Qed.

(** ** The theorems at work on the two-member group *)

(** The run itself: after the Add and after the Update, Alice and Bob hold
    States that compare equal, at epochs 1 and 2, with a fresh message
    master secret; and an Update whose signature was altered is rejected. *)
Lemma scenario_members_agree :
  state_eqb Scenario.alice1 Scenario.bob1 = true
  /\ _epoch Scenario.alice1 = 1
  /\ state_eqb Scenario.alice2 Scenario.bob2 = true
  /\ _epoch Scenario.alice2 = 2
  /\ _message_master_secret Scenario.alice2
     <> _message_master_secret Scenario.alice1
  /\ (handle Scenario.h_update_tampered
        {| this := Scenario.bob1; rng := 2 |}).1
     = Err (InvalidParameterError "Invalid handshake message signature").
Proof.
  repeat match goal with |- _ /\ _ => split end;
    vm_compute; congruence.
Qed.

(** C2 at work: Alice, at epoch 2, is handed the Add of epoch 0 again. *)
Lemma handle_rejects_epoch_mismatch_replay :
  prior_epoch Scenario.h_add <> _epoch Scenario.alice2
  /\ handle Scenario.h_add {| this := Scenario.alice2; rng := 3 |}
     = (Err (InvalidParameterError "Epoch mismatch"),
        {| this := Scenario.alice2; rng := 3 |}).
Proof.
  assert (Hne : prior_epoch Scenario.h_add <> _epoch Scenario.alice2)
    by (vm_compute; discriminate).
  split; [exact Hne|].
  exact (handle_rejects_epoch_mismatch Scenario.h_add Scenario.alice2 3 Hne).
Defined.



(** C5 (amended) at work: Alice removes Bob. *)
Lemma remove_merges_path_and_copies_credential_on_bob :
  length (_roster Scenario.alice3) = length (_roster Scenario.alice2)
  /\ exists cred,
       _roster Scenario.alice2 !! 0%nat = Some cred
       /\ _roster Scenario.alice3 !! 1%nat = Some cred.
Proof.
  destruct (remove_merges_path_and_copies_credential
              Scenario.h_remove
              {| removed := 1;
                 remove_path :=
                   match operation Scenario.h_remove with
                   | OpRemove rm => remove_path rm
                   | _ => []
                   end |}
              Scenario.alice2 3 Scenario.alice3)
    as (_ & _ & (cred & Hsigner & _ & Hremoved) & Hlen);
    [vm_compute; reflexivity|vm_compute; reflexivity|].
  split; [exact Hlen|]. exists cred. split; [exact Hsigner|exact Hremoved].
Defined.

(** C6 at work: Bob checks Alice's signature on her Update. *)
Lemma handle_verifies_signature_on_update :
  handle Scenario.h_update {| this := Scenario.bob1; rng := 2 |}
  = (if signature_verify (public_key {| public_key := rev Scenario.alice_priv |})
          (tls_group_id (_group_id Scenario.bob2)
             ++ tls_epoch (_epoch Scenario.bob2)
             ++ tls_roster (_roster Scenario.bob2)
             ++ tls_tree (_tree Scenario.bob2)
             ++ tls_transcript (_transcript Scenario.bob2))
          (signature Scenario.h_update)
     then Ok Scenario.bob2
     else Err (InvalidParameterError "Invalid handshake message signature"),
     {| this := Scenario.bob1; rng := 2 |}).
Proof.
  apply (handle_verifies_signature_over_successor Scenario.h_update
           Scenario.bob1 2 Scenario.bob2
           {| public_key := rev Scenario.alice_priv |});
    vm_compute; reflexivity.
Defined.

(** C7 at work: Alice applies the Update she made, then cannot apply it
    (or any other self-update) to the successor. *)
Lemma self_update_consumes_cached_secret_alice :
  _cached_leaf_secret Scenario.alice1' = Scenario.alice_leaf_secret
  /\ _cached_leaf_secret Scenario.alice2 = []
  /\ handle Scenario.h_update {| this := Scenario.alice2; rng := 2 |}
     = (Err (InvalidParameterError "Epoch mismatch"),
        {| this := Scenario.alice2; rng := 2 |}).
Proof.
  destruct (self_update_consumes_cached_secret Scenario.h_update
              {| update_path :=
                   match operation Scenario.h_update with
                   | OpUpdate upd => update_path upd
                   | _ => []
                   end |}
              Scenario.alice1' 2)
    as (_ & Hnext & _); try (vm_compute; reflexivity).
  destruct (Hnext Scenario.alice2) as (_ & _ & Hcache & _ & Hagain);
    [vm_compute; reflexivity|].
  split; [vm_compute; reflexivity|]. split; [exact Hcache|].
  apply (Hagain Scenario.h_update
           {| update_path :=
                match operation Scenario.h_update with
                | OpUpdate upd => update_path upd
                | _ => []
                end |} 2);
    vm_compute; reflexivity.
Defined.


(** C9 at work: five bytes out of the two-byte checksum. *)
Lemma hkdf_expand_five_bytes :
  HKDF.expand Toy.hmac 5 (Toy.bytes_of_string "prk")
    (Toy.bytes_of_string "info") 5
  = Some (take 5 (HKDF.rfc_stream Toy.hmac (Toy.bytes_of_string "prk")
                    (Toy.bytes_of_string "info") 5)).
Proof.
  apply (hkdf_extract_expand_rfc5869 Toy.hmac (Toy.bytes_of_string "prk")
           (Toy.bytes_of_string "info") 5 5).
  - intros k m. unfold Toy.hmac. discriminate.
  - lia.
Defined.

(** * Further properties *)

(** ** HKDF::expand: length, prefixes, rounds, the counter *)

Module HKDFMore.
Import HKDF.

Section WithDigest.
Variable hmac : bytes -> bytes -> bytes.

(** [expand] with [size] rounds of fuel is the first [size] bytes of the
    stream, the HMAC never returning the empty string. *)
Lemma expand_stream (prk info : bytes) (size fuel : nat) :
  (forall k m, hmac k m <> []) ->
  (size <= fuel)%nat ->
  expand hmac fuel prk info size
  = Some (take size (rfc_stream hmac prk info size)).
Proof.
  intros Hne Hfuel.
  pose proof (HKDFProofs.rfc_stream_length hmac prk info size Hne) as HL.
  destruct (HKDFProofs.expand_loop_rounds hmac prk info size fuel Hne 0%nat)
    as (n & Hrun & Hn); [simpl; lia|].
  cbn [rfc_stream rfc_T] in Hrun.
  change (N.of_nat 0 mod 256) with 0 in Hrun.
  unfold expand. rewrite Hrun. f_equal.
  rewrite resize_le by exact Hn.
  now apply HKDFProofs.rfc_stream_take.
Qed.

(** The loop, entered after [k] rounds, stops after [n] rounds when [n] is
    the first round count at which the output is long enough. *)
Lemma expand_loop_first (prk info : bytes) (size : nat) (n : nat) :
  (size <= length (rfc_stream hmac prk info n))%nat ->
  (forall j, (j < n)%nat ->
             (length (rfc_stream hmac prk info j) < size)%nat) ->
  forall fuel k : nat,
    (k <= n)%nat -> (n - k <= fuel)%nat ->
    expand_loop hmac fuel prk info size (rfc_stream hmac prk info k)
      (N.of_nat k mod 256) (rfc_T hmac prk info k)
    = Some (rfc_stream hmac prk info n).
Proof.
  intros Hn Hfirst. induction fuel as [|fuel IH]; intros k Hk Hfuel.
  - assert (k = n) as -> by lia. cbn [expand_loop].
    now destruct (Nat.ltb_spec (length (rfc_stream hmac prk info n)) size);
      [lia|].
  - cbn [expand_loop].
    destruct (Nat.ltb_spec (length (rfc_stream hmac prk info k)) size)
      as [Hlt|Hge].
    + assert (k < n)%nat.
      { destruct (Nat.eq_dec k n) as [->|]; lia. }
      rewrite HKDFProofs.u8_succ, HKDFProofs.byte_of_u8_mod.
      change (hmac prk (rfc_T hmac prk info k ++ info
                          ++ [byte_of_u8 (N.of_nat (S k))]))
        with (rfc_T hmac prk info (S k)).
      change (rfc_stream hmac prk info k ++ rfc_T hmac prk info (S k))
        with (rfc_stream hmac prk info (S k)).
      apply IH; lia.
    + destruct (Nat.eq_dec k n) as [->|Hne]; [reflexivity|].
      specialize (Hfirst k). lia.
Qed.

(** With a hash of [h] bytes, [n] blocks are [n * h] bytes. *)
Lemma rfc_stream_fixed_length (prk info : bytes) (h n : nat) :
  (forall k m, length (hmac k m) = h) ->
  length (rfc_stream hmac prk info n) = (n * h)%nat.
Proof.
  intros Hlen. induction n as [|n IH]; [reflexivity|].
  cbn [rfc_stream rfc_T]. rewrite length_app, IH, Hlen. lia.
Qed.

End WithDigest.
End HKDFMore.

(** X1.  HKDF::expand returns exactly [size] bytes, and asking for fewer
    bytes gives a prefix of what asking for more gives. *)
Theorem hkdf_expand_length_and_prefix (hmac : bytes -> bytes -> bytes)
  (prk info : bytes) (size1 size2 fuel : nat) :
  (forall k m, hmac k m <> []) ->
  (size1 <= size2)%nat ->
  (size2 <= fuel)%nat ->
  exists okm1 okm2,
    HKDF.expand hmac fuel prk info size1 = Some okm1
    /\ HKDF.expand hmac fuel prk info size2 = Some okm2
    /\ length okm1 = size1
    /\ length okm2 = size2
    /\ okm1 = take size1 okm2.
Proof.
  intros Hne H12 Hfuel.
  pose proof (HKDFProofs.rfc_stream_length hmac prk info size1 Hne) as H1.
  pose proof (HKDFProofs.rfc_stream_length hmac prk info size2 Hne) as H2.
  exists (take size1 (HKDF.rfc_stream hmac prk info size1)),
         (take size2 (HKDF.rfc_stream hmac prk info size2)).
  rewrite !HKDFMore.expand_stream by (assumption || lia).
  repeat match goal with |- _ /\ _ => split end; try reflexivity.
  - rewrite length_take. lia.
  - rewrite length_take. lia.
  - rewrite take_take, Nat.min_l by exact H12.
    symmetry. apply HKDFProofs.rfc_stream_take; lia.
Qed.

(** X2.  When the HMAC under [prk] returns the empty string, HKDF::expand
    never leaves its loop for a non-zero [size]: no number of rounds is
    enough.  For [size] zero it returns the empty string without a single
    round, whatever the HMAC. *)
Theorem hkdf_expand_stalls_on_empty_hmac (hmac : bytes -> bytes -> bytes)
  (prk info : bytes) :
  (forall fuel, HKDF.expand hmac fuel prk info 0 = Some [])
  /\ ((forall block, hmac prk block = []) ->
      forall size fuel, (0 < size)%nat ->
                        HKDF.expand hmac fuel prk info size = None).
Proof.
  split.
  - intros fuel. unfold HKDF.expand. now destruct fuel.
  - intros Hempty size fuel Hsize. unfold HKDF.expand.
    assert (Hloop : forall i Ti,
              HKDF.expand_loop hmac fuel prk info size [] i Ti = None).
    { induction fuel as [|fuel IH]; intros i Ti; cbn [HKDF.expand_loop];
        destruct (Nat.ltb_spec (length (@nil byte)) size) as [_|Hge];
        try (simpl in Hge; lia); [reflexivity|].
      rewrite Hempty. apply IH. }
    now rewrite Hloop.
Qed.

(** X3.  With a hash of [h] bytes HKDF::expand makes ceil(size / h) rounds,
    no more: that much fuel is enough, and the output before truncation is
    that many blocks. *)
Theorem hkdf_expand_round_count (hmac : bytes -> bytes -> bytes)
  (prk info : bytes) (h size fuel : nat) :
  (0 < h)%nat ->
  (forall k m, length (hmac k m) = h) ->
  ((size + h - 1) / h <= fuel)%nat ->
  HKDF.expand_loop hmac fuel prk info size [] 0 []
  = Some (HKDF.rfc_stream hmac prk info ((size + h - 1) / h))
  /\ HKDF.expand hmac fuel prk info size
     = Some (take size (HKDF.rfc_stream hmac prk info ((size + h - 1) / h)))
  /\ (forall fuel', (fuel' < (size + h - 1) / h)%nat ->
                    HKDF.expand hmac fuel' prk info size = None).
Proof.
  intros Hh Hlen Hfuel. set (n := ((size + h - 1) / h)%nat) in *.
  assert (Hn : (size <= n * h)%nat).
  { pose proof (Nat.div_mod_eq (size + h - 1) h) as Hd.
    pose proof (Nat.mod_upper_bound (size + h - 1) h) as Hm.
    fold n in Hd. nia. }
  assert (Hfirst : forall j, (j < n)%nat -> (j * h < size)%nat).
  { intros j Hj.
    pose proof (Nat.div_mod_eq (size + h - 1) h) as Hd.
    pose proof (Nat.mod_upper_bound (size + h - 1) h) as Hm.
    fold n in Hd. nia. }
  assert (Hrun : forall f, (n <= f)%nat ->
            HKDF.expand_loop hmac f prk info size [] 0 []
            = Some (HKDF.rfc_stream hmac prk info n)).
  { intros f Hf.
    apply (HKDFMore.expand_loop_first hmac prk info size n) with (k := 0%nat);
      try lia.
    - now rewrite (HKDFMore.rfc_stream_fixed_length hmac prk info h).
    - intros j Hj.
      rewrite (HKDFMore.rfc_stream_fixed_length hmac prk info h) by done.
      now apply Hfirst. }
  split; [now apply Hrun|]. split.
  - unfold HKDF.expand. rewrite Hrun by exact Hfuel. f_equal.
    apply resize_le.
    now rewrite (HKDFMore.rfc_stream_fixed_length hmac prk info h).
  - intros fuel' Hlt. unfold HKDF.expand.
    assert (Hnone : forall f k, (k + f < n)%nat ->
              HKDF.expand_loop hmac f prk info size
                (HKDF.rfc_stream hmac prk info k) (N.of_nat k mod 256)
                (HKDF.rfc_T hmac prk info k) = None).
    { induction f as [|f IH]; intros k Hk; cbn [HKDF.expand_loop];
        rewrite (HKDFMore.rfc_stream_fixed_length hmac prk info h) by done;
        (destruct (Nat.ltb_spec (k * h) size) as [_|Hge];
         [|specialize (Hfirst k); lia]); [reflexivity|].
      rewrite HKDFProofs.u8_succ, HKDFProofs.byte_of_u8_mod.
      apply (IH (S k)). lia. }
    specialize (Hnone fuel' 0%nat).
    cbn [HKDF.rfc_stream HKDF.rfc_T] in Hnone.
    change (N.of_nat 0 mod 256) with 0 in Hnone.
    now rewrite Hnone by lia.
Qed.

(** X4.  With a hash of [h] bytes, every block of HKDF::expand's output
    after the first is the HMAC of the block before it, [info] and one
    counter octet, the [uint8_t] round number: the octet of block 256 is
    0x00 again, and of block [i + 256] that of block [i].  No length is
    refused: the bound of 255 blocks is not checked. *)
Theorem hkdf_expand_blocks_chain (hmac : bytes -> bytes -> bytes)
  (prk info : bytes) (h i fuel : nat) :
  (0 < h)%nat ->
  (forall k m, length (hmac k m) = h) ->
  (S (S i) <= fuel)%nat ->
  exists okm,
    HKDF.expand hmac fuel prk info (S (S i) * h) = Some okm
    /\ drop (S i * h) okm
       = hmac prk (take h (drop (i * h) okm) ++ info
                     ++ [byte_of_u8 (N.of_nat (S (S i)))])
    /\ byte_of_u8 (N.of_nat (S (S i) + 256)) = byte_of_u8 (N.of_nat (S (S i)))
    /\ byte_of_u8 (N.of_nat 256) = "000"%byte.
Proof.
  intros Hh Hlen Hfuel.
  assert (Hstream : forall n,
            length (HKDF.rfc_stream hmac prk info n) = (n * h)%nat).
  { intros n. now apply HKDFMore.rfc_stream_fixed_length. }
  exists (HKDF.rfc_stream hmac prk info (S (S i))).
  repeat match goal with |- _ /\ _ => split end.
  - unfold HKDF.expand.
    assert (Hrun :
      HKDF.expand_loop hmac fuel prk info (S (S i) * h) [] 0 []
      = Some (HKDF.rfc_stream hmac prk info (S (S i)))).
    { apply (HKDFMore.expand_loop_first hmac prk info (S (S i) * h)
               (S (S i))) with (k := 0%nat); try lia.
      - rewrite Hstream. lia.
      - intros j Hj. rewrite Hstream. nia. }
    rewrite Hrun. f_equal.
    rewrite resize_le by (rewrite Hstream; lia).
    apply take_ge. rewrite Hstream. lia.
  - change (HKDF.rfc_stream hmac prk info (S (S i)))
      with ((HKDF.rfc_stream hmac prk info i
               ++ HKDF.rfc_T hmac prk info (S i))
              ++ HKDF.rfc_T hmac prk info (S (S i))).
    rewrite drop_app_length'
      by (rewrite <- (Hstream (S i)); reflexivity).
    rewrite <- app_assoc, drop_app_length' by (now rewrite Hstream).
    rewrite take_app_length' by (cbn [HKDF.rfc_T]; now rewrite Hlen).
    reflexivity.
  - rewrite <- (HKDFProofs.byte_of_u8_mod (N.of_nat (S (S i) + 256))).
    rewrite <- (HKDFProofs.byte_of_u8_mod (N.of_nat (S (S i)))).
    f_equal. rewrite Nat2N.inj_add.
    change (N.of_nat 256) with (1 * 256).
    now rewrite N.Div0.mod_add.
  - reflexivity.
Qed.

(** ** The handlers: what a successor keeps, what it changes *)

Section MoreRuns.
Context `{Primitives}.

(** A handler that returns makes handle_operation return its object. *)
Lemma handle_operation_run (signer : N) (op : GroupOperation)
  (s next : State) (r : N) :
  match op with
  | OpAdd a => handle_add a
  | OpUpdate upd => handle_update signer upd
  | OpRemove rm => handle_remove signer rm
  end {| this := set_epoch (u32 (_epoch s + 1)) s; rng := r |}
  = (Ok tt, {| this := next; rng := r |}) ->
  handle_operation signer op {| this := s; rng := r |}
  = (Ok next, {| this := s; rng := r |}).
Proof.
  intros Hinner.
  unfold handle_operation, on_object, mbind, M_bind, get_this, mret, M_ret.
  cbn [this rng]. now rewrite Hinner.
Qed.

(** A handler that throws makes handle_operation throw the same. *)
Lemma handle_operation_throws (signer : N) (op : GroupOperation)
  (s : State) (r : N) (e : error) (m' : Mem) :
  match op with
  | OpAdd a => handle_add a
  | OpUpdate upd => handle_update signer upd
  | OpRemove rm => handle_remove signer rm
  end {| this := set_epoch (u32 (_epoch s + 1)) s; rng := r |}
  = (Err e, m') ->
  (handle_operation signer op {| this := s; rng := r |}).1 = Err e.
Proof.
  intros Hinner.
  unfold handle_operation, on_object, mbind, M_bind, get_this, mret, M_ret.
  cbn [this rng]. now rewrite Hinner.
Qed.

(** [handle] returns what handle_operation built once the signature
    verifies. *)
Lemma handle_accepts (h : Handshake) (s next : State) (r : N)
  (cred : Credential) :
  prior_epoch h = _epoch s ->
  handle_operation (signer_index h) (operation h) {| this := s; rng := r |}
  = (Ok next, {| this := s; rng := r |}) ->
  Roster.get (_roster next) (signer_index h) = Ok cred ->
  signature_verify (public_key cred) (marshal next) (signature h) = true ->
  handle h {| this := s; rng := r |} = (Ok next, {| this := s; rng := r |}).
Proof.
  intros He Hop Hcred Hsig.
  unfold handle, mbind, M_bind, get_this. cbn [this rng].
  rewrite He, N.eqb_refl. cbn [negb]. rewrite Hop.
  unfold on_object, verify, mbind, M_bind, get_this, lift, mret, M_ret.
  cbn [this rng]. now rewrite Hcred, Hsig.
Qed.

(** [handle] passes on what handle_operation throws. *)
Lemma handle_throws (h : Handshake) (s : State) (r : N) (e : error) :
  prior_epoch h = _epoch s ->
  (handle_operation (signer_index h) (operation h)
     {| this := s; rng := r |}).1 = Err e ->
  handle h {| this := s; rng := r |} = (Err e, {| this := s; rng := r |}).
Proof.
  intros He Hop.
  pose proof (const_handle_operation (signer_index h) (operation h)
                {| this := s; rng := r |}) as Hconst.
  destruct (no_random_handle_operation (signer_index h) (operation h) s r r)
    as (_ & _ & Hrng).
  unfold handle, mbind, M_bind, get_this. cbn [this rng].
  rewrite He, N.eqb_refl. cbn [negb].
  destruct (handle_operation (signer_index h) (operation h)
              {| this := s; rng := r |}) as [x [s' r']].
  cbn [fst snd this rng] in *. now subst.
Qed.

(** What [sign] hands out, when it returns. *)
Lemma sign_ok (op : GroupOperation) (s : State) (r : N) (h : Handshake)
  (m' : Mem) :
  sign op {| this := s; rng := r |} = (Ok h, m') ->
  m' = {| this := s; rng := r |}
  /\ exists next,
       handle_operation (_index s) op {| this := s; rng := r |}
       = (Ok next, {| this := s; rng := r |})
       /\ h = {| prior_epoch := _epoch s; operation := op;
                 signer_index := _index s;
                 signature := signature_sign (_identity_priv s)
                                (marshal next) |}.
Proof.
  unfold sign. intros Hrun.
  apply bind_ok in Hrun as (self & m0 & Hself & Hrun).
  unfold get_this in Hself. injection Hself as <- <-. cbn [this] in Hrun.
  apply bind_ok in Hrun as (next & m1 & Hop & Hrun).
  pose proof (const_handle_operation (_index s) op
                {| this := s; rng := r |}) as Hconst.
  destruct (no_random_handle_operation (_index s) op s r r)
    as (_ & _ & Hrng).
  rewrite Hop in Hconst, Hrng. cbn [snd] in *. destruct m1 as [s1 r1].
  cbn [this rng] in *. subst s1 r1.
  unfold mret, M_ret in Hrun. injection Hrun as <- <-.
  split; [reflexivity|]. now exists next.
Qed.

(** A handshake signed by a State is accepted by that State, the signature
    scheme being correct and the signer's credential standing at the
    signer's index of the successor's roster. *)
Lemma sign_accepted (op : GroupOperation) (s : State) (r r' : N)
  (h : Handshake) (m' : Mem) :
  sign op {| this := s; rng := r |} = (Ok h, m') ->
  (forall msg,
     signature_verify (signature_public_key (_identity_priv s)) msg
       (signature_sign (_identity_priv s) msg) = true) ->
  (forall next,
     (handle_operation (_index s) op {| this := s; rng := r |}).1 = Ok next ->
     Roster.get (_roster next) (_index s)
     = Ok {| public_key := signature_public_key (_identity_priv s) |}) ->
  exists next,
    handle h {| this := s; rng := r' |}
    = (Ok next, {| this := s; rng := r' |}).
Proof.
  intros Hsign Hscheme Hcred.
  apply sign_ok in Hsign as (_ & next & Hop & ->).
  exists next. specialize (Hcred next). rewrite Hop in Hcred.
  specialize (Hcred eq_refl).
  destruct (no_random_handle_operation (_index s) op s r r')
    as (Hval & _ & _).
  destruct (no_random_handle_operation (_index s) op s r' r')
    as (_ & _ & Hrng).
  pose proof (const_handle_operation (_index s) op
                {| this := s; rng := r' |}) as Hconst.
  rewrite Hop in Hval. cbn [fst] in Hval.
  apply handle_accepts with (cred := {| public_key :=
           signature_public_key (_identity_priv s) |});
    cbn [prior_epoch signer_index operation signature public_key];
    [reflexivity| |exact Hcred|apply Hscheme].
  destruct (handle_operation (_index s) op {| this := s; rng := r' |})
    as [x [s1 r1]]. cbn [fst snd this rng] in *. now subst.
Qed.

(** The fields no handler writes. *)
Lemma handle_operation_keeps (signer : N) (op : GroupOperation)
  (s next : State) (r : N) (m' : Mem) :
  handle_operation signer op {| this := s; rng := r |} = (Ok next, m') ->
  _group_id next = _group_id s
  /\ _suite next = _suite s
  /\ _index next = _index s
  /\ _identity_priv next = _identity_priv s
  /\ _transcript next = _transcript s.
Proof.
  intros Hrun. apply handle_operation_ok in Hrun.
  destruct op as [a|upd|rm].
  - apply handle_add_ok in Hrun as (_ & ? & ? & ? & ? & ? & Hrest).
    destruct Hrest as (_ & _ & _ & _ & _ & Hnext).
    now injection Hnext as ->.
  - apply handle_update_ok in Hrun as (? & ? & ? & _ & _ & Hcase).
    destruct (signer =? _) in Hcase.
    + destruct Hcase as (_ & _ & Hnext). now injection Hnext as ->.
    + destruct Hcase as (? & _ & _ & Hnext). now injection Hnext as ->.
  - apply handle_remove_ok in Hrun as (? & ? & ? & ? & ? & Hrest).
    destruct Hrest as (_ & _ & _ & _ & _ & Hnext).
    now injection Hnext as ->.
Qed.

Lemma u32_u32_add (a b : N) : u32 (u32 a + b) = u32 (a + b).
Proof. unfold u32. now rewrite N.Div0.add_mod_idemp_l. Qed.

Lemma u32_small (a : N) : a < 2 ^ 32 -> u32 a = a.
Proof. intros Ha. unfold u32. now apply N.mod_small. Qed.

End MoreRuns.

(** X5.  A successor keeps the receiver's group id, cipher suite, own leaf
    index, identity key and transcript: no handshake changes them. *)
Theorem handle_keeps_identity_fields `{Primitives}
  (h : Handshake) (s : State) (r : N) (next : State) :
  (handle h {| this := s; rng := r |}).1 = Ok next ->
  _group_id next = _group_id s
  /\ _suite next = _suite s
  /\ _index next = _index s
  /\ _identity_priv next = _identity_priv s
  /\ _transcript next = _transcript s.
Proof.
  intros Hok. apply handle_ok in Hok as (_ & Hop & _).
  now apply handle_operation_keeps in Hop.
Qed.

(** X6.  An Add that is applied passed the UserInitKey's own signature
    check, merged its path at the leaf just past the tree, and appended to
    the roster one credential, the UserInitKey's identity key: the entries
    already there keep their places, and the cached leaf secret is
    untouched. *)
Theorem handle_add_appends_credential `{Primitives}
  (h : Handshake) (a : Add) (s : State) (r : N) (next : State) :
  operation h = OpAdd a ->
  (handle h {| this := s; rng := r |}).1 = Ok next ->
  user_init_key_verify (add_init_key a) = true
  /\ _roster next
     = _roster s ++ [{| public_key := identity_key (add_init_key a) |}]
  /\ length (_roster next) = S (length (_roster s))
  /\ (forall i cred, _roster s !! i = Some cred ->
                     _roster next !! i = Some cred)
  /\ (exists path,
        tree_decrypt (_tree s) (tree_size (_tree s)) (add_path a) = Ok path
        /\ tree_merge (_tree s) (tree_size (_tree s)) path = Ok (_tree next))
  /\ _cached_leaf_secret next = _cached_leaf_secret s.
Proof.
  intros Hop Hok. apply handle_ok in Hok as (_ & Hrun & _).
  rewrite Hop in Hrun. apply handle_operation_ok in Hrun.
  apply handle_add_ok in Hrun
    as (Hverify & k & path & t & root & us & _ & Hdec & Hmerge & _ & _ & Hn).
  injection Hn as ->. cbn [this _tree _roster set_epoch] in *.
  split; [exact Hverify|]. simpl. unfold Roster.add.
  repeat match goal with |- _ /\ _ => split end; try reflexivity.
  - rewrite length_app. simpl. lia.
  - intros i cred Hi. rewrite lookup_app_l; [exact Hi|].
    now apply lookup_lt_Some in Hi.
  - now exists path.
Qed.

(** X7.  An Add whose UserInitKey fails its signature check is rejected
    with InvalidParameterError, whatever the tree and the handshake's own
    signature: the check comes before the tree is touched. *)
Theorem handle_add_rejects_unverified_init_key `{Primitives}
  (h : Handshake) (a : Add) (s : State) (r : N) :
  prior_epoch h = _epoch s ->
  operation h = OpAdd a ->
  user_init_key_verify (add_init_key a) = false ->
  handle h {| this := s; rng := r |}
  = (Err (InvalidParameterError
            "Invalid signature on init key in group add"),
     {| this := s; rng := r |}).
Proof.
  intros He Hop Hverify. apply handle_throws; [exact He|].
  rewrite Hop.
  apply handle_operation_throws
    with (m' := {| this := set_epoch (u32 (_epoch s + 1)) s; rng := r |}).
  unfold handle_add. now rewrite Hverify.
Qed.

(** X8.  An Update signed by another leaf is applied by decrypting its path
    and merging it at the signer's leaf; the roster stays as it is, and so
    does a leaf secret this member has cached for an Update of its own. *)
Theorem handle_peer_update_keeps_cache `{Primitives}
  (h : Handshake) (upd : Update) (s : State) (r : N) (next : State) :
  operation h = OpUpdate upd ->
  signer_index h <> _index s ->
  (handle h {| this := s; rng := r |}).1 = Ok next ->
  _cached_leaf_secret next = _cached_leaf_secret s
  /\ _roster next = _roster s
  /\ exists path,
       tree_decrypt (_tree s) (signer_index h) (update_path upd) = Ok path
       /\ tree_merge (_tree s) (signer_index h) path = Ok (_tree next).
Proof.
  intros Hop Hpeer Hok. apply handle_ok in Hok as (_ & Hrun & _).
  rewrite Hop in Hrun. apply handle_operation_ok in Hrun.
  apply handle_update_ok in Hrun as (t & root & us & _ & _ & Hcase).
  cbn [this _index set_epoch] in Hcase.
  destruct (N.eqb_spec (signer_index h) (_index s)) as [|_]; [done|].
  destruct Hcase as (path & Hdec & Hmerge & Hn). injection Hn as ->.
  cbn [this _tree set_epoch] in *. simpl.
  split; [reflexivity|]. split; [reflexivity|]. now exists path.
Qed.

(** X9.  A handshake that has been applied cannot be applied to its own
    successor: it is rejected there for its epoch.  And a successor never
    compares equal to the State it came from. *)
Theorem handle_rejects_replay `{Primitives}
  (h : Handshake) (s : State) (r r' : N) (next : State) :
  (handle h {| this := s; rng := r |}).1 = Ok next ->
  handle h {| this := next; rng := r' |}
  = (Err (InvalidParameterError "Epoch mismatch"),
     {| this := next; rng := r' |})
  /\ state_eqb next s = false
  /\ state_eqb s next = false.
Proof.
  intros Hok. apply handle_ok in Hok as (He & Hop & _).
  apply handle_operation_epoch in Hop.
  pose proof (u32_succ_neq (_epoch s)) as Hne. rewrite <- Hop in Hne.
  split; [|split].
  - unfold handle, mbind, M_bind, get_this, throw. cbn [this rng].
    rewrite He. destruct (N.eqb_spec (_epoch s) (_epoch next)); [|done].
    congruence.
  - unfold state_eqb.
    now destruct (N.eqb_spec (_epoch next) (_epoch s)).
  - unfold state_eqb.
    destruct (N.eqb_spec (_epoch s) (_epoch next)); [congruence|done].
Qed.

(** X10.  A run of handshakes that is applied in full carried consecutive
    prior epochs, starting at the receiver's, and ends at the receiver's
    epoch plus the number of handshakes (modulo 2^32). *)
Theorem handle_all_epochs `{Primitives}
  (hs : list Handshake) (s : State) (r : N) (final : State) :
  _epoch s < 2 ^ 32 ->
  (handle_all hs s r).1 = Ok final ->
  _epoch final = u32 (_epoch s + N.of_nat (length hs))
  /\ forall i h, hs !! i = Some h ->
                 prior_epoch h = u32 (_epoch s + N.of_nat i).
Proof.
  revert s r. induction hs as [|h0 hs IH]; intros s r Hs Hrun.
  - cbn in Hrun. injection Hrun as <-. split.
    + cbn [length]. now rewrite N.add_0_r, u32_small.
    + intros i h Hi. now rewrite lookup_nil in Hi.
  - cbn [handle_all] in Hrun.
    destruct (handle h0 {| this := s; rng := r |}) as [[next|e] m] eqn:Hh;
      [|discriminate Hrun].
    assert (Hok : (handle h0 {| this := s; rng := r |}).1 = Ok next)
      by now rewrite Hh.
    apply handle_ok in Hok as (He & Hop & _).
    apply handle_operation_epoch in Hop.
    assert (Hnext : _epoch next < 2 ^ 32).
    { rewrite Hop. unfold u32. apply N.mod_lt. lia. }
    destruct (IH next (rng m) Hnext Hrun) as (Hfinal & Hprior).
    split.
    + rewrite Hfinal, Hop, u32_u32_add. f_equal. cbn [length]. lia.
    + intros [|i] h Hi.
      * cbn in Hi. injection Hi as <-.
        now rewrite He, N.add_0_r, u32_small.
      * cbn in Hi. rewrite (Hprior i h Hi), Hop, u32_u32_add. f_equal. lia.
Qed.

(** ** The message factories *)

Section Factories.
Context `{Primitives}.

(** The suite check of State::add is a membership test. *)
Lemma cipher_supported_elem (suite : CipherSuite) (l : list CipherSuite)
  (b : bool) :
  foldl (fun acc s => acc || bool_decide (s = suite)) b l = true
  <-> b = true \/ suite ∈ l.
Proof.
  revert b. induction l as [|x l IH]; intros b; cbn [foldl].
  - rewrite elem_of_nil. tauto.
  - rewrite IH, elem_of_cons, orb_true_iff, bool_decide_eq_true.
    split; [intros [[Hb|Hx]|Hl]|intros [Hb|[Hx|Hl]]]; subst; auto.
Qed.

Lemma const_add (uik : UserInitKey) : const_call (add uik).
Proof.
  unfold add.
  pose proof const_sign. frame_steps @const_bind mls_const.
Qed.

Lemma const_remove (index : N) : const_call (remove index).
Proof.
  unfold remove.
  pose proof const_sign. frame_steps @const_bind mls_const.
Qed.

Lemma no_random_sign (op : GroupOperation) : no_random (sign op).
Proof. unfold sign. frame_steps @no_random_bind mls_rng. Qed.

(** What [update] does, by the outcome of encrypting the path. *)
Lemma update_run (leaf_secret : bytes) (s : State) (r : N) :
  update leaf_secret {| this := s; rng := r |}
  = match tree_encrypt (_tree s) (_index s) leaf_secret r with
    | (Ok path, r1) =>
        sign (OpUpdate {| update_path := path |})
          {| this := set_cached_leaf_secret leaf_secret s; rng := r1 |}
    | (Err e, r1) => (Err e, {| this := s; rng := r1 |})
    end.
Proof.
  unfold update, mbind, M_bind, get_this, tree_encrypt_call, modify_this.
  cbn [this rng].
  destruct (tree_encrypt (_tree s) (_index s) leaf_secret r)
    as [[path|e] r1]; [|reflexivity].
  cbn [this rng]. now destruct (sign _ _) as [[x|e] m].
Qed.

End Factories.


(** X12.  State::update writes nothing but the cached leaf secret, and it
    records the secret before it signs: when the path cannot be encrypted
    the error is the one of [encrypt] and the State is untouched; once it
    can, the secret is cached even if signing then throws; and with an
    empty leaf secret signing always throws, so the call fails having
    emptied the cache.  A handshake it returns is an Update at the State's
    epoch, signed at its own leaf, carrying the encrypted path. *)
Theorem update_records_before_signing `{Primitives}
  (leaf_secret : bytes) (s : State) (r : N) :
  (forall e,
     (tree_encrypt (_tree s) (_index s) leaf_secret r).1 = Err e ->
     (update leaf_secret {| this := s; rng := r |}).1 = Err e
     /\ this (update leaf_secret {| this := s; rng := r |}).2 = s)
  /\ (forall path,
        (tree_encrypt (_tree s) (_index s) leaf_secret r).1 = Ok path ->
        this (update leaf_secret {| this := s; rng := r |}).2
        = set_cached_leaf_secret leaf_secret s
        /\ (leaf_secret = [] ->
            (update leaf_secret {| this := s; rng := r |}).1
            = Err (InvalidParameterError
                     "Got self-update without generating one"))
        /\ (forall h,
              (update leaf_secret {| this := s; rng := r |}).1 = Ok h ->
              leaf_secret <> []
              /\ operation h = OpUpdate {| update_path := path |}
              /\ prior_epoch h = _epoch s
              /\ signer_index h = _index s)).
Proof.
  rewrite update_run.
  destruct (tree_encrypt (_tree s) (_index s) leaf_secret r) as [x r1].
  cbn [fst]. split.
  - intros e ->. now cbn.
  - intros path ->.
    set (s' := set_cached_leaf_secret leaf_secret s).
    set (op := OpUpdate {| update_path := path |}).
    pose proof (const_sign op {| this := s'; rng := r1 |}) as Hconst.
    assert (Hempty : leaf_secret = [] ->
              (sign op {| this := s'; rng := r1 |}).1
              = Err (InvalidParameterError
                       "Got self-update without generating one")).
    { intros ->. unfold sign, mbind, M_bind, get_this. cbn [this rng].
      pose proof (handle_operation_throws (_index s') op s' r1
                    (InvalidParameterError
                       "Got self-update without generating one")
                    {| this := set_epoch (u32 (_epoch s' + 1)) s';
                       rng := r1 |}) as Hthrow.
      destruct (handle_operation (_index s') op {| this := s'; rng := r1 |})
        as [[x|e] m]; cbn [fst] in *.
      - discriminate Hthrow. now apply handle_update_no_cache.
      - f_equal. symmetry.
        enough (Err e = Err (InvalidParameterError
                   "Got self-update without generating one")
                :> result State) by congruence.
        apply Hthrow. now apply handle_update_no_cache. }
    split; [|split].
    + exact Hconst.
    + exact Hempty.
    + intros h Hh.
      destruct (sign op {| this := s'; rng := r1 |}) as [x m] eqn:Hsign.
      cbn [fst] in Hh. subst x.
      split.
      { intros ->. specialize (Hempty eq_refl). discriminate Hempty. }
      apply sign_ok in Hsign as (_ & next & _ & ->). now cbn.
Qed.

(** X13.  Update, then handle: the State that called [update] accepts the
    handshake it got (given a signature scheme that verifies what it signs
    and its own credential at its own index of the successor's roster); the
    successor's tree has the own leaf set from the leaf secret given to
    [update], and its cache is empty again. *)
Theorem update_then_handle `{Primitives}
  (leaf_secret : bytes) (s : State) (r r' : N) (h : Handshake)
  (s' : State) (r1 : N) :
  update leaf_secret {| this := s; rng := r |}
  = (Ok h, {| this := s'; rng := r1 |}) ->
  (forall msg,
     signature_verify (signature_public_key (_identity_priv s)) msg
       (signature_sign (_identity_priv s) msg) = true) ->
  (forall next,
     (handle_operation (_index s) (operation h)
        {| this := s'; rng := r |}).1 = Ok next ->
     Roster.get (_roster next) (_index s)
     = Ok {| public_key := signature_public_key (_identity_priv s) |}) ->
  exists next,
    handle h {| this := s'; rng := r' |}
    = (Ok next, {| this := s'; rng := r' |})
    /\ tree_set_leaf (_tree s) (_index s) leaf_secret = Ok (_tree next)
    /\ _cached_leaf_secret s' = leaf_secret
    /\ _cached_leaf_secret next = []
    /\ _epoch next = u32 (_epoch s + 1).
Proof.
  intros Hupd Hscheme Hcred.
  rewrite update_run in Hupd.
  destruct (tree_encrypt (_tree s) (_index s) leaf_secret r)
    as [[path|e] re]; [|discriminate Hupd].
  pose proof Hupd as Hsign.
  apply sign_ok in Hsign as (Hm & next & Hop & Hh).
  injection Hm as -> ->.
  assert (Hop_h : operation h = OpUpdate {| update_path := path |})
    by now subst h.
  assert (Hcred' : forall next,
            (handle_operation (_index s) (OpUpdate {| update_path := path |})
               {| this := set_cached_leaf_secret leaf_secret s;
                  rng := re |}).1 = Ok next ->
            Roster.get (_roster next) (_index s)
            = Ok {| public_key := signature_public_key (_identity_priv s) |}).
  { intros n Hn. apply Hcred. rewrite Hop_h.
    destruct (no_random_handle_operation (_index s)
                (OpUpdate {| update_path := path |})
                (set_cached_leaf_secret leaf_secret s) r re) as (Hv & _).
    now rewrite Hv. }
  destruct (sign_accepted _ _ re r' h _ Hupd Hscheme Hcred')
    as (next' & Hnext).
  exists next'. split; [exact Hnext|].
  assert (Hok : (handle h {| this := set_cached_leaf_secret leaf_secret s;
                             rng := r' |}).1 = Ok next')
    by now rewrite Hnext.
  apply handle_ok in Hok as (_ & Hrun & _).
  pose proof (handle_operation_epoch _ _ _ _ _ _ Hrun) as Hepoch.
  rewrite Hop_h in Hrun. apply handle_operation_ok in Hrun.
  apply handle_update_ok in Hrun as (t & root & us & _ & _ & Hcase).
  subst h. cbn [signer_index this _index set_epoch set_cached_leaf_secret]
    in Hcase.
  rewrite N.eqb_refl in Hcase. destruct Hcase as (_ & Hset & Hn).
  injection Hn as ->. now cbn in *.
Qed.

Section AddRemove.
Context `{Primitives}.

(** State::add past its two checks: one draw for the leaf secret, then the
    path, the signature and the pair. *)
Lemma add_run (uik : UserInitKey) (s : State) (r : N) :
  user_init_key_verify uik = true ->
  _suite s ∈ cipher_suites uik ->
  add uik {| this := s; rng := r |}
  = (path ← tree_encrypt_call (tree_size (_tree s)) (csprng r 32);
     h ← sign (OpAdd {| add_path := path; add_init_key := uik |});
     mret ({| w_group_id := _group_id s; w_epoch := _epoch s;
              w_cipher_suite := _suite s; w_roster := _roster s;
              w_tree := _tree s; w_transcript := _transcript s;
              w_init_secret := _init_secret s;
              w_leaf_secret := csprng r 32 |}, h))
      {| this := s; rng := r + 1 |}.
Proof.
  intros Hverify Hsuite. unfold add. rewrite Hverify. cbn [negb].
  unfold mbind at 1. unfold M_bind at 1. unfold get_this at 1.
  cbn [this rng].
  assert (Hsup : foldl (fun acc suite => acc || bool_decide (suite = _suite s))
                   false (cipher_suites uik) = true)
    by (apply cipher_supported_elem; now right).
  rewrite Hsup. cbn [negb]. reflexivity.
Qed.

Lemma remove_run (index : N) (s : State) (r : N) :
  remove index {| this := s; rng := r |}
  = (path ← tree_encrypt_call index (csprng r 32);
     sign (OpRemove {| removed := index; remove_path := path |}))
      {| this := s; rng := r + 1 |}.
Proof. reflexivity. Qed.

(** A path that [tree_encrypt_call] yields is the one [encrypt] made, on
    the tree of the State, at the CSPRNG state of the call. *)
Lemma tree_encrypt_call_ok (from : N) (leaf : bytes) (m m' : Mem)
  (path : RatchetPath) :
  tree_encrypt_call from leaf m = (Ok path, m') ->
  (tree_encrypt (_tree (this m)) from leaf (rng m)).1 = Ok path
  /\ this m' = this m.
Proof.
  unfold tree_encrypt_call.
  destruct (tree_encrypt (_tree (this m)) from leaf (rng m)) as [x r1].
  intros Hrun. injection Hrun as -> <-. now split.
Qed.

End AddRemove.

(** X14.  State::add checks the UserInitKey before anything else, its
    signature first (InvalidParameterError), then that it offers the
    group's suite (ProtocolError); a rejected UserInitKey leaves the store,
    State and CSPRNG, as it was.  And in no case, rejected, failed later or
    returned, is the State changed: [add] does not apply the Add it
    builds. *)
Theorem add_checks_user_init_key_first `{Primitives}
  (uik : UserInitKey) (s : State) (r : N) :
  (user_init_key_verify uik = false ->
   add uik {| this := s; rng := r |}
   = (Err (InvalidParameterError "bad signature on user init key"),
      {| this := s; rng := r |}))
  /\ (user_init_key_verify uik = true ->
      _suite s ∉ cipher_suites uik ->
      add uik {| this := s; rng := r |}
      = (Err (ProtocolError
                "New member does not support the groups ciphersuite"),
         {| this := s; rng := r |}))
  /\ this (add uik {| this := s; rng := r |}).2 = s.
Proof.
  split; [|split].
  - intros Hverify. unfold add. now rewrite Hverify.
  - intros Hverify Hsuite. unfold add. rewrite Hverify. cbn [negb].
    unfold mbind, M_bind, get_this, throw. cbn [this rng].
    destruct (foldl _ _ _) eqn:Hsup; [|reflexivity].
    apply cipher_supported_elem in Hsup as [|]; done.
  - exact (const_add uik {| this := s; rng := r |}).
Qed.

Section AddReturns.
Context `{Primitives}.

(** What State::add hands out, when it returns. *)
Lemma add_ok
  (uik : UserInitKey) (s : State) (r : N) (w : Welcome) (h : Handshake)
  (m' : Mem) :
  add uik {| this := s; rng := r |} = (Ok (w, h), m') ->
  user_init_key_verify uik = true
  /\ _suite s ∈ cipher_suites uik
  /\ w = {| w_group_id := _group_id s; w_epoch := _epoch s;
            w_cipher_suite := _suite s; w_roster := _roster s;
            w_tree := _tree s; w_transcript := _transcript s;
            w_init_secret := _init_secret s;
            w_leaf_secret := csprng r 32 |}
  /\ (exists path,
        (tree_encrypt (_tree s) (tree_size (_tree s)) (csprng r 32)
           (r + 1)).1 = Ok path
        /\ operation h = OpAdd {| add_path := path; add_init_key := uik |})
  /\ prior_epoch h = _epoch s
  /\ signer_index h = _index s
  /\ this m' = s.
Proof.
  intros Hadd.
  destruct (user_init_key_verify uik) eqn:Hverify.
  2:{ unfold add in Hadd. rewrite Hverify in Hadd. discriminate Hadd. }
  destruct (decide (_suite s ∈ cipher_suites uik)) as [Hsuite|Hsuite].
  2:{ unfold add in Hadd. rewrite Hverify in Hadd. cbn [negb] in Hadd.
      unfold mbind, M_bind, get_this, throw in Hadd. cbn [this rng] in Hadd.
      destruct (foldl _ _ _) eqn:Hsup; [|discriminate Hadd].
      apply cipher_supported_elem in Hsup as [|]; done. }
  rewrite (add_run uik s r Hverify Hsuite) in Hadd.
  apply bind_ok in Hadd as (path & m1 & Henc & Hadd).
  apply tree_encrypt_call_ok in Henc as (Henc & Hthis).
  destruct m1 as [s1 r1]. cbn [this rng] in Henc, Hthis. subst s1.
  apply bind_ok in Hadd as (h' & m2 & Hsign & Hadd).
  apply sign_ok in Hsign as (-> & next & _ & ->).
  unfold mret, M_ret in Hadd. injection Hadd as <- <- <-.
  repeat match goal with |- _ /\ _ => split end; try done.
  now exists path.
Qed.

End AddReturns.

(** X15.  What State::add returns: a Welcome that is a copy of the State as
    it stands before the Add (group id, epoch, suite, roster, tree,
    transcript, init secret) together with the fresh leaf secret, the
    32 bytes just drawn; and an Add handshake at the State's epoch, signed
    at its own leaf, whose path is that leaf secret encrypted from the
    first leaf past the tree and whose init key is the UserInitKey as
    given. *)
Theorem add_returns_welcome_of_current_state `{Primitives}
  (uik : UserInitKey) (s : State) (r : N) (w : Welcome) (h : Handshake)
  (m' : Mem) :
  add uik {| this := s; rng := r |} = (Ok (w, h), m') ->
  user_init_key_verify uik = true
  /\ _suite s ∈ cipher_suites uik
  /\ w = {| w_group_id := _group_id s; w_epoch := _epoch s;
            w_cipher_suite := _suite s; w_roster := _roster s;
            w_tree := _tree s; w_transcript := _transcript s;
            w_init_secret := _init_secret s;
            w_leaf_secret := csprng r 32 |}
  /\ (exists path,
        (tree_encrypt (_tree s) (tree_size (_tree s)) (csprng r 32)
           (r + 1)).1 = Ok path
        /\ operation h = OpAdd {| add_path := path; add_init_key := uik |})
  /\ prior_epoch h = _epoch s
  /\ signer_index h = _index s
  /\ this m' = s.
Proof. apply add_ok. Qed.

(** X16.  State::remove never changes the State, whether it returns or
    throws.  A handshake it returns is a Remove of the given leaf at the
    State's epoch, signed at its own leaf, whose path is the evict secret,
    the 32 bytes drawn at the start of the call, encrypted from the removed
    leaf. *)
Theorem remove_signs_evict_path `{Primitives}
  (index : N) (s : State) (r : N) :
  this (remove index {| this := s; rng := r |}).2 = s
  /\ forall h,
       (remove index {| this := s; rng := r |}).1 = Ok h ->
       (exists path,
          (tree_encrypt (_tree s) index (csprng r 32) (r + 1)).1 = Ok path
          /\ operation h
             = OpRemove {| removed := index; remove_path := path |})
       /\ prior_epoch h = _epoch s
       /\ signer_index h = _index s.
Proof.
  split.
  - exact (const_remove index {| this := s; rng := r |}).
  - intros h Hh. rewrite remove_run in Hh.
    destruct (@mbind M _ _ _ _ _ {| this := s; rng := r + 1 |}) as [x m] eqn:Hrun.
    cbn [fst] in Hh. subst x.
    apply bind_ok in Hrun as (path & m1 & Henc & Hsign).
    apply tree_encrypt_call_ok in Henc as (Henc & Hthis).
    destruct m1 as [s1 r1]. cbn [this rng] in Henc, Hthis. subst s1.
    apply sign_ok in Hsign as (_ & next & _ & ->).
    split; [now exists path|]. now split.
Qed.

(** ** Joining, and founding a group *)

Section Negotiation.

Lemma join_find_suite_Some (l : list CipherSuite) (s : CipherSuite)
  (k i : N) :
  join_find_suite l s k = Some i ->
  k <= i
  /\ l !! N.to_nat (i - k) = Some s
  /\ forall j, (j < N.to_nat (i - k))%nat -> l !! j <> Some s.
Proof.
  revert k. induction l as [|x l IH]; intros k; cbn [join_find_suite];
    [discriminate|].
  case_bool_decide as Hx.
  - intros [= <-]. rewrite N.sub_diag. subst x.
    split; [lia|]. split; [reflexivity|]. intros j Hj. simpl in Hj. lia.
  - intros Hfind. apply IH in Hfind as (Hle & Hat & Hfirst).
    replace (N.to_nat (i - k)) with (S (N.to_nat (i - (k + 1)))) by lia.
    split; [lia|]. split; [exact Hat|].
    intros [|j] Hj; cbn; [congruence|]. apply Hfirst. lia.
Qed.

Lemma join_find_suite_first (l : list CipherSuite) (s : CipherSuite)
  (k : N) (n : nat) :
  l !! n = Some s ->
  (forall j, (j < n)%nat -> l !! j <> Some s) ->
  join_find_suite l s k = Some (k + N.of_nat n).
Proof.
  revert k n. induction l as [|x l IH]; intros k n Hat Hfirst;
    [now rewrite lookup_nil in Hat|].
  cbn [join_find_suite]. case_bool_decide as Hx.
  - destruct n as [|n]; [f_equal; lia|].
    specialize (Hfirst 0%nat). cbn in Hfirst. subst x.
    exfalso. apply Hfirst; [lia|reflexivity].
  - destruct n as [|n]; [cbn in Hat; congruence|].
    rewrite (IH (k + 1) n); [f_equal; lia|exact Hat|].
    intros j Hj. apply (Hfirst (S j)). lia.
Qed.

Lemma join_find_suite_None (l : list CipherSuite) (s : CipherSuite) (k : N) :
  join_find_suite l s k = None <-> s ∉ l.
Proof.
  revert k. induction l as [|x l IH]; intros k; cbn [join_find_suite].
  - split; [intros _; apply not_elem_of_nil|done].
  - rewrite not_elem_of_cons. case_bool_decide as Hx.
    + split; [discriminate|]. intros [Hne _]. congruence.
    + rewrite IH. split; [intros ?; split; congruence|tauto].
Qed.

Lemma create_group_offered_elem (my_suite : CipherSuite)
  (others : list CipherSuite) :
  create_group_offered my_suite others = true <-> my_suite ∈ others.
Proof.
  induction others as [|x l IH]; cbn [create_group_offered].
  - rewrite elem_of_nil. split; [discriminate|tauto].
  - rewrite elem_of_cons. case_bool_decide as Hx; [tauto|].
    rewrite IH. split; [tauto|]. intros [?|?]; [congruence|done].
Qed.

End Negotiation.

(** X17.  The joiner's loop over the UserInitKey's suites picks the first
    position that holds the group's suite, and finds none exactly when the
    suite is not offered; so it finds one for every UserInitKey that the
    suite check of State::add lets through. *)
Theorem join_find_suite_first_match (suites : list CipherSuite)
  (suite : CipherSuite) :
  (forall i,
     join_find_suite suites suite 0 = Some i <->
     suites !! N.to_nat i = Some suite
     /\ forall j, (j < N.to_nat i)%nat -> suites !! j <> Some suite)
  /\ (join_find_suite suites suite 0 = None <-> suite ∉ suites)
  /\ (foldl (fun acc s => acc || bool_decide (s = suite)) false suites = true
      <-> exists i, join_find_suite suites suite 0 = Some i).
Proof.
  split; [|split].
  - intros i. split.
    + intros Hfind. apply join_find_suite_Some in Hfind as (_ & Hat & Hf).
      now rewrite N.sub_0_r in *.
    + intros (Hat & Hfirst).
      rewrite (join_find_suite_first suites suite 0 (N.to_nat i) Hat Hfirst).
      f_equal. lia.
  - apply join_find_suite_None.
  - rewrite cipher_supported_elem.
    pose proof (join_find_suite_None suites suite 0) as Hnone.
    destruct (join_find_suite suites suite 0) as [i|].
    + split; [intros _; now exists i|]. intros _. right.
      destruct (decide (suite ∈ suites)) as [|Hn]; [done|].
      now apply Hnone in Hn.
    + split; [|intros [? ?]; done].
      intros [|Hin]; [done|]. exfalso. now apply Hnone.
Qed.

(** X18.  create_group settles on the first of its own suites, in its own
    order of preference, that the other party offers, wherever it stands
    in the other party's list; it settles on none exactly when the two
    lists have no suite in common. *)
Theorem create_group_negotiate_first_common
  (supported others : list CipherSuite) :
  (forall suite,
     create_group_negotiate supported others = Some suite <->
     exists i,
       supported !! i = Some suite
       /\ suite ∈ others
       /\ forall j s, (j < i)%nat -> supported !! j = Some s -> s ∉ others)
  /\ (create_group_negotiate supported others = None <->
      forall s, s ∈ supported -> s ∉ others).
Proof.
  induction supported as [|x l [IHsome IHnone]]; cbn [create_group_negotiate].
  - split.
    + intros suite. split; [discriminate|]. intros (i & Hi & _).
      now rewrite lookup_nil in Hi.
    + split; [|done]. intros _ s Hs. now apply elem_of_nil in Hs.
  - pose proof (create_group_offered_elem x others) as Hoff.
    destruct (create_group_offered x others).
    + assert (Hx : x ∈ others) by now apply Hoff.
      split.
      * intros suite. split.
        -- intros [= <-]. exists 0%nat. split; [reflexivity|].
           split; [exact Hx|]. intros j s Hj. lia.
        -- intros ([|i] & Hi & Hin & Hfirst); [cbn in Hi; congruence|].
           exfalso. apply (Hfirst 0%nat x); [lia|reflexivity|exact Hx].
      * split; [discriminate|]. intros Hall. exfalso.
        apply (Hall x); [apply elem_of_cons; now left|exact Hx].
    + assert (Hx : x ∉ others) by (intros Hin; now apply Hoff in Hin).
      split.
      * intros suite. rewrite IHsome. split.
        -- intros (i & Hi & Hin & Hfirst). exists (S i).
           split; [exact Hi|]. split; [exact Hin|].
           intros [|j] s Hj Hs; cbn in Hs; [congruence|].
           apply (Hfirst j); [lia|exact Hs].
        -- intros ([|i] & Hi & Hin & Hfirst); cbn in Hi; [congruence|].
           exists i. split; [exact Hi|]. split; [exact Hin|].
           intros j s Hj Hs. apply (Hfirst (S j)); [lia|exact Hs].
      * rewrite IHnone. split.
        -- intros Hall s Hs. apply elem_of_cons in Hs as [->|Hs];
             [exact Hx|now apply Hall].
        -- intros Hall s Hs. apply Hall. apply elem_of_cons. now right.
Qed.

Section Joining.
Context `{Primitives}.

(** What the joining constructor went through, when it returns. *)
Lemma join_ok (identity_priv : SignaturePrivateKey) (init_secret : bytes)
  (w : Welcome) (h : Handshake) (r r' : N) (joined : State) :
  join identity_priv init_secret w h r = (Ok joined, r') ->
  r' = r
  /\ exists a i t cred,
       operation h = OpAdd a
       /\ identity_key (add_init_key a) = signature_public_key identity_priv
       /\ join_find_suite (cipher_suites (add_init_key a))
            (w_cipher_suite w) 0 = Some i
       /\ init_keys (add_init_key a) !! N.to_nat i
          = Some (dh_derive_public_key (w_cipher_suite w) init_secret)
       /\ tree_set_leaf (w_tree w) (tree_size (w_tree w)) (w_leaf_secret w)
          = Ok t
       /\ _tree joined = t
       /\ _roster joined
          = w_roster w ++ [{| public_key := identity_key (add_init_key a) |}]
       /\ _epoch joined = u32 (w_epoch w + 1)
       /\ _index joined = tree_size (w_tree w)
       /\ _group_id joined = w_group_id w
       /\ _suite joined = w_cipher_suite w
       /\ _transcript joined = w_transcript w
       /\ _identity_priv joined = identity_priv
       /\ _cached_leaf_secret joined = []
       /\ Roster.get (_roster joined) (signer_index h) = Ok cred
       /\ signature_verify (public_key cred) (marshal joined) (signature h)
          = true.
Proof.
  unfold join, construct. intros Hrun.
  destruct (operation h) as [a|upd|rm]; try discriminate Hrun.
  case_bool_decide as Hid; [|discriminate Hrun]. cbn [negb] in Hrun.
  match type of Hrun with
  | match ?c ?m with _ => _ end = _ =>
      destruct (c m) as [[[]|e] m'] eqn:Hbody; [|discriminate Hrun]
  end.
  injection Hrun as <- <-.
  apply bind_ok in Hbody as (self & m0 & Hself & Hbody).
  unfold get_this in Hself. injection Hself as <- <-.
  cbn [this _suite _index] in Hbody.
  destruct (join_find_suite _ _ _) as [i|] eqn:Hfind;
    [|discriminate Hbody].
  apply bind_ok in Hbody as (k & m1 & Hkey & Hbody).
  unfold lift, vec_at in Hkey.
  destruct (init_keys (add_init_key a) !! N.to_nat i) as [k'|] eqn:Hk;
    [|discriminate Hkey].
  injection Hkey as -> <-.
  case_bool_decide as Hinit; [|discriminate Hbody]. cbn [negb] in Hbody.
  subst k.
  apply bind_ok in Hbody as ([] & m2 & Hroster & Hbody).
  unfold modify_this in Hroster. injection Hroster as <-.
  cbn [this rng] in Hbody.
  apply bind_ok in Hbody as ([] & m3 & Hleaf & Hbody).
  apply update_leaf_ok in Hleaf as (t & root & us & Hset & _ & _ & ->).
  cbn [this rng _tree set_roster] in *.
  apply bind_ok in Hbody as (verified & m4 & Hverify & Hbody).
  unfold verify in Hverify.
  apply bind_ok in Hverify as (self & m5 & Hself & Hverify).
  unfold get_this in Hself. injection Hself as <- <-.
  cbn [this rng] in Hverify.
  apply bind_ok in Hverify as (cred & m6 & Hcred & Hverify).
  unfold lift in Hcred. injection Hcred as Hcred <-.
  unfold mret, M_ret in Hverify. injection Hverify as <- <-.
  destruct (signature_verify _ _ _) eqn:Hsig; [|discriminate Hbody].
  cbn [negb] in Hbody. unfold mret, M_ret in Hbody.
  injection Hbody as <-. cbn [this rng].
  split; [reflexivity|]. exists a, i, t, cred.
  repeat match goal with |- _ /\ _ => split end; try done.
Qed.

End Joining.

(** X19.  The joining constructor rejects, in this order and before it
    touches the tree: a handshake that is not an Add
    (InvalidParameterError); an Add whose UserInitKey carries another
    identity key than the joiner's (InvalidParameterError); a UserInitKey
    that does not offer the Welcome's suite (ProtocolError); and one whose
    init key for that suite is not the public key of the joiner's init
    secret (ProtocolError).  None of this draws from the CSPRNG. *)
Theorem join_rejects `{Primitives}
  (identity_priv : SignaturePrivateKey) (init_secret : bytes)
  (w : Welcome) (h : Handshake) (r : N) :
  ((forall a, operation h <> OpAdd a) ->
   join identity_priv init_secret w h r
   = (Err (InvalidParameterError "Incorrect handshake type"), r))
  /\ (forall a,
        operation h = OpAdd a ->
        identity_key (add_init_key a) <> signature_public_key identity_priv ->
        join identity_priv init_secret w h r
        = (Err (InvalidParameterError "Group add not targeted for this node"),
           r))
  /\ (forall a,
        operation h = OpAdd a ->
        identity_key (add_init_key a) = signature_public_key identity_priv ->
        w_cipher_suite w ∉ cipher_suites (add_init_key a) ->
        join identity_priv init_secret w h r
        = (Err (ProtocolError "Selected cipher suite not supported"), r))
  /\ (forall a i k,
        operation h = OpAdd a ->
        identity_key (add_init_key a) = signature_public_key identity_priv ->
        join_find_suite (cipher_suites (add_init_key a))
          (w_cipher_suite w) 0 = Some i ->
        init_keys (add_init_key a) !! N.to_nat i = Some k ->
        k <> dh_derive_public_key (w_cipher_suite w) init_secret ->
        join identity_priv init_secret w h r
        = (Err (ProtocolError "Incorrect init key"), r)).
Proof.
  repeat match goal with |- _ /\ _ => split end.
  - intros Hop. unfold join, construct.
    destruct (operation h) as [a|upd|rm]; [now destruct (Hop a)|done|done].
  - intros a Hop Hid. unfold join, construct. rewrite Hop.
    now rewrite bool_decide_eq_false_2.
  - intros a Hop Hid Hsuite. unfold join, construct. rewrite Hop.
    rewrite bool_decide_eq_true_2 by exact Hid. cbn [negb].
    unfold mbind, M_bind, get_this. cbn [this rng _suite].
    apply (join_find_suite_None _ _ 0) in Hsuite. now rewrite Hsuite.
  - intros a i k Hop Hid Hfind Hk Hne. unfold join, construct. rewrite Hop.
    rewrite bool_decide_eq_true_2 by exact Hid. cbn [negb].
    unfold mbind, M_bind, get_this, lift, vec_at. cbn [this rng _suite].
    rewrite Hfind, Hk. now rewrite bool_decide_eq_false_2.
Qed.

(** X20.  A State that the joining constructor returns is the Welcome's
    State moved on by the Add: epoch one past the Welcome's, own index the
    first leaf past the Welcome's tree, group id, suite and transcript the
    Welcome's, roster the Welcome's with the joiner's credential appended,
    tree the Welcome's with the own leaf set from the Welcome's leaf
    secret, nothing cached; the UserInitKey's entry for the suite was the
    joiner's own init key, and the handshake's signature verified over the
    new State.  The constructor draws nothing from the CSPRNG. *)
Theorem join_builds_successor_of_welcome `{Primitives}
  (identity_priv : SignaturePrivateKey) (init_secret : bytes)
  (w : Welcome) (h : Handshake) (r r' : N) (joined : State) :
  join identity_priv init_secret w h r = (Ok joined, r') ->
  r' = r
  /\ exists a i t cred,
       operation h = OpAdd a
       /\ identity_key (add_init_key a) = signature_public_key identity_priv
       /\ join_find_suite (cipher_suites (add_init_key a))
            (w_cipher_suite w) 0 = Some i
       /\ init_keys (add_init_key a) !! N.to_nat i
          = Some (dh_derive_public_key (w_cipher_suite w) init_secret)
       /\ tree_set_leaf (w_tree w) (tree_size (w_tree w)) (w_leaf_secret w)
          = Ok t
       /\ _tree joined = t
       /\ _roster joined
          = w_roster w ++ [{| public_key := identity_key (add_init_key a) |}]
       /\ _epoch joined = u32 (w_epoch w + 1)
       /\ _index joined = tree_size (w_tree w)
       /\ _group_id joined = w_group_id w
       /\ _suite joined = w_cipher_suite w
       /\ _transcript joined = w_transcript w
       /\ _identity_priv joined = identity_priv
       /\ _cached_leaf_secret joined = []
       /\ Roster.get (_roster joined) (signer_index h) = Ok cred
       /\ signature_verify (public_key cred) (marshal joined) (signature h)
          = true.
Proof. apply join_ok. Qed.

(** X21.  The member who adds and the member who joins end up side by
    side: when [add] returns a Welcome and an Add, the adder applies the
    Add and the newcomer constructs its State from both, the two States
    have the same epoch, group id, suite, roster and transcript, and the
    newcomer's leaf is the one just past the adder's old tree, the last
    entry of the shared roster. *)
Theorem add_handle_join_agree `{Primitives}
  (uik : UserInitKey) (s : State) (r r2 r3 r3' : N)
  (w : Welcome) (h : Handshake) (m1 : Mem) (next joined : State)
  (identity_priv : SignaturePrivateKey) (init_secret : bytes) :
  add uik {| this := s; rng := r |} = (Ok (w, h), m1) ->
  (handle h {| this := s; rng := r2 |}).1 = Ok next ->
  join identity_priv init_secret w h r3 = (Ok joined, r3') ->
  _epoch joined = _epoch next
  /\ _group_id joined = _group_id next
  /\ _suite joined = _suite next
  /\ _roster joined = _roster next
  /\ _transcript joined = _transcript next
  /\ _index joined = tree_size (_tree s)
  /\ _index next = _index s
  /\ length (_roster next) = S (length (_roster s)).
Proof.
  intros Hadd Hhandle Hjoin.
  apply add_ok in Hadd
    as (_ & _ & -> & (path & _ & Hop) & _ & _ & _).
  pose proof (handle_operation_keeps (signer_index h) (operation h) s next r2)
    as Hkeep.
  apply handle_ok in Hhandle as (_ & Hrun & _).
  specialize (Hkeep _ Hrun) as (Hg & Hs & Hi & _ & Ht).
  pose proof (handle_operation_epoch _ _ _ _ _ _ Hrun) as Hepoch.
  rewrite Hop in Hrun. apply handle_operation_ok in Hrun.
  apply handle_add_ok in Hrun
    as (_ & k & p & t & root & us & _ & _ & _ & _ & _ & Hn).
  injection Hn as Hn.
  assert (Hroster : _roster next
            = _roster s ++ [{| public_key := identity_key uik |}])
    by now subst next.
  apply join_ok in Hjoin as (_ & a & i & t' & cred & Hop' & Hrest).
  rewrite Hop in Hop'. injection Hop' as <-.
  cbn [add_init_key w_roster w_epoch w_tree w_group_id w_cipher_suite
       w_transcript] in Hrest.
  destruct Hrest as (_ & _ & _ & _ & _ & Hr & He & Hix & Hgid & Hsu & Htr & _).
  repeat match goal with |- _ /\ _ => split end; try congruence.
  rewrite Hroster, length_app. simpl. lia.
Qed.

(** X22.  create_group hands back the founder's State as the constructor
    left it, at epoch 0 with the founder alone in the roster, together with
    a Welcome and an Add both of epoch 0: the Add has been checked by
    [handle], but the successor that [handle] built is dropped.  The
    returned State still has to apply the returned Add, and doing so
    succeeds and leads to epoch 1 with two members.  The suite is the one
    negotiated, and the founder's tree is built on the 32 bytes drawn
    first. *)
Theorem create_group_returns_founder_state `{Primitives}
  (group_id : bytes) (supported : list CipherSuite)
  (identity_priv : SignaturePrivateKey) (uik : UserInitKey) (r r' : N)
  (state : State) (w : Welcome) (h : Handshake) :
  create_group group_id supported identity_priv uik r
  = (Ok (state, (w, h)), r') ->
  create_group_negotiate supported (cipher_suites uik)
  = Some (_suite state)
  /\ (new_group group_id (_suite state) identity_priv r).1 = Ok state
  /\ _epoch state = 0
  /\ _index state = 0
  /\ _roster state
     = [{| public_key := signature_public_key identity_priv |}]
  /\ _tree state = tree_new (_suite state) (csprng r 32)
  /\ w_epoch w = 0
  /\ w_roster w = _roster state
  /\ prior_epoch h = 0
  /\ exists next,
       (forall r2, handle h {| this := state; rng := r2 |}
                   = (Ok next, {| this := state; rng := r2 |}))
       /\ _epoch next = 1
       /\ _roster next = _roster state ++ [{| public_key := identity_key uik |}].
Proof.
  unfold create_group. intros Hrun.
  destruct (create_group_negotiate _ _) as [suite|] eqn:Hneg;
    [|discriminate Hrun].
  unfold new_group, construct, modify_this in *. cbn [this rng] in *.
  match type of Hrun with
  | match ?c ?m with _ => _ end = _ =>
      destruct (c m) as [[info|e] m'] eqn:Hbody; [|discriminate Hrun]
  end.
  injection Hrun as -> <-.
  apply bind_ok in Hbody as ([w' h'] & m1 & Hadd & Hbody).
  apply add_ok in Hadd
    as (_ & _ & Hw & (path & _ & Hop) & Hprior & _ & Hthis).
  destruct m1 as [s1 rm]. cbn [this] in Hthis. subst s1.
  apply bind_ok in Hbody as (next & m2 & Hhandle & Hbody).
  cbn [snd] in Hhandle.
  apply bind_ok in Hbody as (self & m3 & Hself & Hbody).
  unfold get_this in Hself. injection Hself as <- <-.
  unfold mret, M_ret in Hbody. injection Hbody as <- <- <- <-.
  match type of Hhandle with
  | handle _ {| this := ?st; rng := ?rr |} = _ =>
      pose proof (const_handle h' {| this := st; rng := rr |}) as Hconst;
      destruct (no_random_handle h' st rr rr) as (_ & _ & Hrng);
      set (st0 := st) in *
  end.
  rewrite Hhandle in Hconst, Hrng. cbn [snd this] in Hconst, Hrng.
  rewrite Hconst. subst w'. cbn [w_epoch w_roster w_leaf_secret].
  repeat match goal with |- _ /\ _ => split end;
    try reflexivity; try exact Hprior.
  exists next.
  { assert (Hall : forall r2, handle h' {| this := st0; rng := r2 |}
                     = (Ok next, {| this := st0; rng := r2 |})).
    { intros r2.
      destruct (no_random_handle h' st0 rm r2) as (Hv & _ & _).
      destruct (no_random_handle h' st0 r2 r2) as (_ & _ & Hr2).
      pose proof (const_handle h' {| this := st0; rng := r2 |}) as Hc2.
      rewrite Hhandle in Hv. cbn [fst] in Hv.
      destruct (handle h' {| this := st0; rng := r2 |}) as [x [s1 r1]].
      cbn [fst snd this rng] in *. now subst. }
    split; [exact Hall|].
    assert (Hok : (handle h' {| this := st0; rng := 0 |}).1 = Ok next)
      by now rewrite Hall.
    apply handle_ok in Hok as (_ & Hop2 & _).
    pose proof (handle_operation_epoch _ _ _ _ _ _ Hop2) as Hepoch.
    rewrite Hop in Hop2. apply handle_operation_ok in Hop2.
    apply handle_add_ok in Hop2
      as (_ & k & p & t & root & us & _ & _ & _ & _ & _ & Hn).
    injection Hn as Hn. split; [exact Hepoch|]. now subst next. }
Qed.

(** ** The further properties at work *)

Section ToyLaws.

(** The small instance's signatures verify. *)
Lemma toy_signature_correct (priv msg : bytes) :
  signature_verify (signature_public_key priv) msg
    (signature_sign priv msg) = true.
Proof. apply bool_decide_eq_true_2. reflexivity. Qed.

Lemma toy_hmac_nonempty (k m : bytes) : Toy.hmac k m <> [].
Proof. discriminate. Qed.

Lemma hmac4_length (k m : bytes) : length (Scenario2.hmac4 k m) = 4%nat.
Proof. reflexivity. Qed.

End ToyLaws.

Lemma hkdf_expand_three_of_seven :
  exists okm1 okm2,
    HKDF.expand Toy.hmac 7 Scenario2.prk Scenario2.info 3 = Some okm1
    /\ HKDF.expand Toy.hmac 7 Scenario2.prk Scenario2.info 7 = Some okm2
    /\ length okm1 = 3%nat
    /\ length okm2 = 7%nat
    /\ okm1 = take 3 okm2.
Proof.
  apply (hkdf_expand_length_and_prefix Toy.hmac Scenario2.prk Scenario2.info
           3 7 7 toy_hmac_nonempty); lia.
Defined.

Lemma hkdf_expand_stalls_at_work :
  HKDF.expand Scenario2.hmac_empty 1000 Scenario2.prk Scenario2.info 5 = None.
Proof.
  apply (proj2 (hkdf_expand_stalls_on_empty_hmac Scenario2.hmac_empty
                  Scenario2.prk Scenario2.info)).
  - intros block. reflexivity.
  - lia.
Defined.

Lemma hkdf_expand_three_rounds_for_ten_bytes :
  HKDF.expand_loop Scenario2.hmac4 3 Scenario2.prk Scenario2.info 10 [] 0 []
  = Some (HKDF.rfc_stream Scenario2.hmac4 Scenario2.prk Scenario2.info
            ((10 + 4 - 1) / 4))
  /\ HKDF.expand Scenario2.hmac4 2 Scenario2.prk Scenario2.info 10 = None.
Proof.
  destruct (hkdf_expand_round_count Scenario2.hmac4 Scenario2.prk
              Scenario2.info 4 10 3) as (Hloop & _ & Hshort).
  - lia.
  - exact hmac4_length.
  - vm_compute. lia.
  - split; [exact Hloop|]. apply Hshort. vm_compute. lia.
Defined.

Lemma hkdf_expand_block_256 :
  exists okm,
    HKDF.expand Scenario2.hmac4 256 Scenario2.prk Scenario2.info
      (S (S 254) * 4) = Some okm
    /\ drop (S 254 * 4) okm
       = Scenario2.hmac4 Scenario2.prk
           (take 4 (drop (254 * 4) okm) ++ Scenario2.info
              ++ [byte_of_u8 (N.of_nat (S (S 254)))])
    /\ byte_of_u8 (N.of_nat 256) = "000"%byte.
Proof.
  destruct (hkdf_expand_blocks_chain Scenario2.hmac4 Scenario2.prk
              Scenario2.info 4 254 256) as (okm & Hrun & Hlast & _ & Hzero).
  - lia.
  - exact hmac4_length.
  - lia.
  - exists okm. split; [exact Hrun|]. split; [exact Hlast|exact Hzero].
Defined.

Lemma handle_keeps_identity_fields_on_remove :
  _group_id Scenario.alice3 = _group_id Scenario.alice2
  /\ _suite Scenario.alice3 = _suite Scenario.alice2
  /\ _index Scenario.alice3 = _index Scenario.alice2
  /\ _identity_priv Scenario.alice3 = _identity_priv Scenario.alice2
  /\ _transcript Scenario.alice3 = _transcript Scenario.alice2.
Proof.
  apply (handle_keeps_identity_fields Scenario.h_remove Scenario.alice2 3).
  vm_compute. reflexivity.
Defined.

Lemma handle_add_appends_bob :
  _roster Scenario.alice1
  = _roster Scenario.alice0
      ++ [{| public_key := identity_key (add_init_key Scenario2.add_bob) |}]
  /\ length (_roster Scenario.alice1) = S (length (_roster Scenario.alice0)).
Proof.
  destruct (handle_add_appends_credential Scenario.h_add Scenario2.add_bob
              Scenario.alice0 2 Scenario.alice1)
    as (_ & Hroster & Hlen & _); try (vm_compute; reflexivity).
  split; [exact Hroster|exact Hlen].
Defined.

Lemma handle_add_rejects_forged_init_key :
  handle Scenario2.h_add_forged {| this := Scenario.alice0; rng := 2 |}
  = (Err (InvalidParameterError
            "Invalid signature on init key in group add"),
     {| this := Scenario.alice0; rng := 2 |}).
Proof.
  apply (handle_add_rejects_unverified_init_key Scenario2.h_add_forged
           Scenario2.add_forged Scenario.alice0 2);
    vm_compute; reflexivity.
Defined.

Lemma handle_peer_update_keeps_alice_cache :
  _cached_leaf_secret Scenario2.alice2b
  = _cached_leaf_secret Scenario.alice1'
  /\ _roster Scenario2.alice2b = _roster Scenario.alice1'.
Proof.
  destruct (handle_peer_update_keeps_cache Scenario2.h_update_bob
              Scenario2.update_bob Scenario.alice1' 9 Scenario2.alice2b)
    as (Hcache & Hroster & _).
  - vm_compute. reflexivity.
  - vm_compute. discriminate.
  - vm_compute. reflexivity.
  - split; [exact Hcache|exact Hroster].
Defined.

Lemma handle_rejects_replay_of_add :
  handle Scenario.h_add {| this := Scenario.alice1; rng := 7 |}
  = (Err (InvalidParameterError "Epoch mismatch"),
     {| this := Scenario.alice1; rng := 7 |})
  /\ state_eqb Scenario.alice1 Scenario.alice0 = false
  /\ state_eqb Scenario.alice0 Scenario.alice1 = false.
Proof.
  apply (handle_rejects_replay Scenario.h_add Scenario.alice0 2 7).
  vm_compute. reflexivity.
Defined.

Lemma handle_all_epochs_bob :
  _epoch Scenario2.bob3
  = u32 (_epoch Scenario.bob1
         + N.of_nat (length [Scenario.h_update; Scenario.h_remove]))
  /\ prior_epoch Scenario.h_remove = u32 (_epoch Scenario.bob1 + N.of_nat 1).
Proof.
  destruct (handle_all_epochs [Scenario.h_update; Scenario.h_remove]
              Scenario.bob1 2 Scenario2.bob3) as (Hfinal & Hprior).
  - vm_compute. reflexivity.
  - vm_compute. reflexivity.
  - split; [exact Hfinal|]. apply (Hprior 1%nat). reflexivity.
Defined.


Lemma update_records_before_signing_alice :
  (update [] {| this := Scenario.alice1; rng := 2 |}).1
  = Err (InvalidParameterError "Got self-update without generating one")
  /\ this (update Scenario.alice_leaf_secret
             {| this := Scenario.alice1; rng := 2 |}).2
     = set_cached_leaf_secret Scenario.alice_leaf_secret Scenario.alice1.
Proof.
  split.
  - destruct (proj2 (update_records_before_signing [] Scenario.alice1 2)
                (Scenario.from_ok []
                   (tree_encrypt (_tree Scenario.alice1)
                      (_index Scenario.alice1) [] 2).1))
      as (_ & Hempty & _); [vm_compute; reflexivity|].
    now apply Hempty.
  - destruct (proj2 (update_records_before_signing
                       Scenario.alice_leaf_secret Scenario.alice1 2)
                (Scenario.from_ok []
                   (tree_encrypt (_tree Scenario.alice1)
                      (_index Scenario.alice1) Scenario.alice_leaf_secret
                      2).1))
      as (Hstore & _); [vm_compute; reflexivity|].
    exact Hstore.
Defined.

Lemma update_then_handle_alice :
  exists next,
    handle Scenario.h_update {| this := Scenario.alice1'; rng := 11 |}
    = (Ok next, {| this := Scenario.alice1'; rng := 11 |})
    /\ tree_set_leaf (_tree Scenario.alice1) (_index Scenario.alice1)
         Scenario.alice_leaf_secret = Ok (_tree next)
    /\ _cached_leaf_secret Scenario.alice1' = Scenario.alice_leaf_secret
    /\ _cached_leaf_secret next = []
    /\ _epoch next = u32 (_epoch Scenario.alice1 + 1).
Proof.
  apply (update_then_handle Scenario.alice_leaf_secret Scenario.alice1 2 11
           Scenario.h_update Scenario.alice1' 3).
  - vm_compute. reflexivity.
  - intros msg. apply toy_signature_correct.
  - intros next Hnext. vm_compute in Hnext. injection Hnext as <-.
    vm_compute. reflexivity.
Defined.

Lemma add_checks_at_work :
  add Scenario2.forged_uik {| this := Scenario.alice0; rng := 1 |}
  = (Err (InvalidParameterError "bad signature on user init key"),
     {| this := Scenario.alice0; rng := 1 |})
  /\ add Scenario2.dave_uik {| this := Scenario.alice0; rng := 1 |}
     = (Err (ProtocolError
               "New member does not support the groups ciphersuite"),
        {| this := Scenario.alice0; rng := 1 |})
  /\ this (add Scenario.bob_uik {| this := Scenario.alice0; rng := 1 |}).2
     = Scenario.alice0.
Proof.
  destruct (add_checks_user_init_key_first Scenario2.forged_uik
              Scenario.alice0 1) as (Hforged & _ & _).
  destruct (add_checks_user_init_key_first Scenario2.dave_uik
              Scenario.alice0 1) as (_ & Hdave & _).
  destruct (add_checks_user_init_key_first Scenario.bob_uik
              Scenario.alice0 1) as (_ & _ & Hbob).
  split; [apply Hforged; vm_compute; reflexivity|].
  split; [|exact Hbob].
  apply Hdave; [vm_compute; reflexivity|].
  intros Hin. vm_compute in Hin.
  apply list_elem_of_singleton in Hin. discriminate Hin.
Defined.

Lemma add_returns_welcome_of_alice0 :
  w_epoch Scenario.welcome_add.1 = _epoch Scenario.alice0
  /\ w_roster Scenario.welcome_add.1 = _roster Scenario.alice0
  /\ w_leaf_secret Scenario.welcome_add.1 = csprng 1 32
  /\ prior_epoch Scenario.h_add = _epoch Scenario.alice0.
Proof.
  destruct (add_returns_welcome_of_current_state Scenario.bob_uik
              Scenario.alice0 1 Scenario.welcome_add.1 Scenario.h_add
              {| this := Scenario.alice0; rng := 3 |})
    as (_ & _ & Hw & _ & Hprior & _); [vm_compute; reflexivity|].
  split; [now rewrite Hw|]. split; [now rewrite Hw|].
  split; [now rewrite Hw|exact Hprior].
Defined.

Lemma remove_signs_evict_path_alice :
  (remove 1 {| this := Scenario.alice2; rng := 2 |}).1 = Ok Scenario.h_remove
  /\ this (remove 1 {| this := Scenario.alice2; rng := 2 |}).2
     = Scenario.alice2
  /\ prior_epoch Scenario.h_remove = _epoch Scenario.alice2
  /\ signer_index Scenario.h_remove = _index Scenario.alice2.
Proof.
  assert (Hrun : (remove 1 {| this := Scenario.alice2; rng := 2 |}).1
                 = Ok Scenario.h_remove) by (vm_compute; reflexivity).
  destruct (remove_signs_evict_path 1 Scenario.alice2 2) as (Hthis & Hshape).
  destruct (Hshape Scenario.h_remove Hrun) as (_ & Hprior & Hsigner).
  split; [exact Hrun|]. split; [exact Hthis|].
  split; [exact Hprior|exact Hsigner].
Defined.

Lemma join_rejects_at_work :
  join Scenario.bob_priv Scenario.bob_init_secret Scenario.welcome_add.1
    Scenario.h_update 2
  = (Err (InvalidParameterError "Incorrect handshake type"), 2)
  /\ join Scenario.alice_priv Scenario.bob_init_secret
       Scenario.welcome_add.1 Scenario.h_add 2
     = (Err (InvalidParameterError "Group add not targeted for this node"),
        2).
Proof.
  destruct (join_rejects Scenario.bob_priv Scenario.bob_init_secret
              Scenario.welcome_add.1 Scenario.h_update 2)
    as (Htype & _).
  destruct (join_rejects Scenario.alice_priv Scenario.bob_init_secret
              Scenario.welcome_add.1 Scenario.h_add 2)
    as (_ & Hid & _).
  split.
  - apply Htype. intros a Ha. vm_compute in Ha. discriminate Ha.
  - apply (Hid Scenario2.add_bob); [vm_compute; reflexivity|].
    vm_compute. discriminate.
Defined.

Lemma join_builds_bob :
  exists a i t cred,
    operation Scenario.h_add = OpAdd a
    /\ identity_key (add_init_key a)
       = signature_public_key Scenario.bob_priv
    /\ join_find_suite (cipher_suites (add_init_key a))
         (w_cipher_suite Scenario.welcome_add.1) 0 = Some i
    /\ init_keys (add_init_key a) !! N.to_nat i
       = Some (dh_derive_public_key (w_cipher_suite Scenario.welcome_add.1)
                 Scenario.bob_init_secret)
    /\ tree_set_leaf (w_tree Scenario.welcome_add.1)
         (tree_size (w_tree Scenario.welcome_add.1))
         (w_leaf_secret Scenario.welcome_add.1) = Ok t
    /\ _tree Scenario.bob1 = t
    /\ _roster Scenario.bob1
       = w_roster Scenario.welcome_add.1
           ++ [{| public_key := identity_key (add_init_key a) |}]
    /\ _epoch Scenario.bob1 = u32 (w_epoch Scenario.welcome_add.1 + 1)
    /\ _index Scenario.bob1 = tree_size (w_tree Scenario.welcome_add.1)
    /\ _group_id Scenario.bob1 = w_group_id Scenario.welcome_add.1
    /\ _suite Scenario.bob1 = w_cipher_suite Scenario.welcome_add.1
    /\ _transcript Scenario.bob1 = w_transcript Scenario.welcome_add.1
    /\ _identity_priv Scenario.bob1 = Scenario.bob_priv
    /\ _cached_leaf_secret Scenario.bob1 = []
    /\ Roster.get (_roster Scenario.bob1) (signer_index Scenario.h_add)
       = Ok cred
    /\ signature_verify (public_key cred) (marshal Scenario.bob1)
         (signature Scenario.h_add) = true.
Proof.
  apply (join_builds_successor_of_welcome Scenario.bob_priv
           Scenario.bob_init_secret Scenario.welcome_add.1 Scenario.h_add
           2 2 Scenario.bob1).
  vm_compute. reflexivity.
Defined.

Lemma add_handle_join_agree_alice_bob :
  _epoch Scenario.bob1 = _epoch Scenario.alice1
  /\ _group_id Scenario.bob1 = _group_id Scenario.alice1
  /\ _suite Scenario.bob1 = _suite Scenario.alice1
  /\ _roster Scenario.bob1 = _roster Scenario.alice1
  /\ _transcript Scenario.bob1 = _transcript Scenario.alice1
  /\ _index Scenario.bob1 = tree_size (_tree Scenario.alice0)
  /\ _index Scenario.alice1 = _index Scenario.alice0
  /\ length (_roster Scenario.alice1) = S (length (_roster Scenario.alice0)).
Proof.
  apply (add_handle_join_agree Scenario.bob_uik Scenario.alice0 1 2 2 2
           Scenario.welcome_add.1 Scenario.h_add
           {| this := Scenario.alice0; rng := 3 |}
           Scenario.alice1 Scenario.bob1
           Scenario.bob_priv Scenario.bob_init_secret);
    vm_compute; reflexivity.
Defined.

Lemma create_group_returns_alice_at_epoch_0 :
  _epoch Scenario2.founded_info.1 = 0
  /\ prior_epoch Scenario2.founded_info.2.2 = 0
  /\ exists next,
       (forall r2,
          handle Scenario2.founded_info.2.2
            {| this := Scenario2.founded_info.1; rng := r2 |}
          = (Ok next, {| this := Scenario2.founded_info.1; rng := r2 |}))
       /\ _epoch next = 1.
Proof.
  destruct (create_group_returns_founder_state Scenario.group_id
              [P521_SHA512_AES256GCM; Scenario.suite] Scenario.alice_priv
              Scenario.bob_uik 0 3 Scenario2.founded_info.1
              Scenario2.founded_info.2.1 Scenario2.founded_info.2.2)
    as (_ & _ & Hepoch & _ & _ & _ & _ & _ & Hprior & next & Hnext
        & Hone & _); [vm_compute; reflexivity|].
  split; [exact Hepoch|]. split; [exact Hprior|].
  exists next. split; [exact Hnext|exact Hone].
Defined.
